(** * CookieDialog: the consent lifecycle engine

    A shallow embedding of [src/storage.ts] (class [ConsentStorage]),
    [src/geolocation.ts] (class [GeolocationService]) and the start-up
    decision of [src/index.ts] (class [CookieDialog]), with the properties
    of the specification stated and proved over it.

    The browser is explicit state: [World] holds the clock read by
    [Date.now()], the contents of [localStorage], whether [setItem]
    currently throws, what [fetch] settles to, and the trace of the calls
    the code makes to its collaborators (storage writes, lookups, hooks).
    JavaScript exceptions are the [Throw] results of a small state and
    error monad; [try_catch] is [try { } catch { }].  [JSON.stringify] and
    [JSON.parse] belong to the runtime, not to the repository: they are
    parameters of the development.

    Conventions.  Numbers are integers (epoch milliseconds, whole days),
    on which the doubles of JavaScript are exact below 2^53.  The clock
    stands still while synchronous code runs and advances by [latency]
    across the one [await fetch]; no other task runs at the [await]s.  A
    hook is a call recorded in the trace, made when the hook is supplied,
    that returns normally.  Console output is not recorded.  Objects read
    from JSON are taken at the TypeScript types the source gives them: a
    stored entry is absent, is not JSON, or is an object with the fields of
    [ConsentState].  A category id is a property name that a plain object
    stores on assignment, hence not [__proto__], and the ids, names and
    descriptions rendered are plain text that the HTML parser hands back
    unchanged. *)

From Stdlib Require Import ZArith String Ascii List Lia.
From stdpp Require Import base option list strings gmap.

Open Scope string_scope.
Open Scope list_scope.
Open Scope Z_scope.

(** ** Data model ([src/types.ts]) *)

Inductive Reason : Type :=
| user_accept
| user_reject
| location_not_required.

(** [ConsentState.locationData] *)
Record LocationData : Type := mkLocationData {
  ld_country : option string;
  ld_region : option string;
  ld_inEU : bool;
  detectionMethod : string
}.

Record ConsentState : Type := mkConsentState {
  timestamp : Z;
  categories : gmap string bool;
  version : string;
  reason : Reason;
  locationData : option LocationData
}.

Record CookieCategory : Type := mkCookieCategory {
  id : string;
  name : string;
  description : string;
  required : bool
}.

Record GeolocationResponse : Type := mkGeolocationResponse {
  inEU : bool;
  country : option string;
  region : option string
}.

Definition set_categories (c : ConsentState) (cs : gmap string bool) : ConsentState :=
  mkConsentState (timestamp c) cs (version c) (reason c) (locationData c).

Definition set_timestamp (c : ConsentState) (t : Z) : ConsentState :=
  mkConsentState t (categories c) (version c) (reason c) (locationData c).

(** The wire value of [reason] in the persisted record. *)
Definition reason_wire (r : Reason) : string :=
  match r with
  | user_accept => "user_accept"
  | user_reject => "user_reject"
  | location_not_required => "location_not_required"
  end.

(** ** The browser *)

(** The body of the lookup response, at the fields the code reads from it. *)
Record GeoData : Type := mkGeoData {
  country_code : option string;
  country_name : option string;
  data_region : option string;
  data_inEU : option bool;
  in_eu : option bool;
  data_country : option string
}.

(** The response [fetch] resolves to: its [ok] flag, its status and its body
    ([None]: [response.json()] rejects). *)
Record Response : Type := mkResponse {
  ok : bool;
  status : Z;
  body : option GeoData
}.

(** Calls the code makes to its collaborators, in the order it makes them. *)
Inductive Event : Type :=
| EvSetItem (key value : string)
| EvRemoveItem (key : string)
| EvFetch (url : string)
| EvOnAccept (consent : ConsentState)
| EvOnReject
| EvOnChange (consent : ConsentState)
| EvOnLocationNotRequired (loc : GeolocationResponse).

Record World : Type := mkWorld {
  now : Z;                          (* Date.now(), epoch milliseconds *)
  localStorage : gmap string string;
  setItem_throws : bool;            (* quota exceeded, storage disabled *)
  network : string → option Response;   (* None: fetch rejects *)
  latency : Z;                      (* time one lookup takes *)
  trace : list Event
}.

Definition set_now (t : Z) (w : World) : World :=
  mkWorld t (localStorage w) (setItem_throws w) (network w) (latency w) (trace w).

Definition set_localStorage (m : gmap string string) (w : World) : World :=
  mkWorld (now w) m (setItem_throws w) (network w) (latency w) (trace w).

Definition set_setItem_throws (b : bool) (w : World) : World :=
  mkWorld (now w) (localStorage w) b (network w) (latency w) (trace w).

Definition set_network (n : string → option Response) (w : World) : World :=
  mkWorld (now w) (localStorage w) (setItem_throws w) n (latency w) (trace w).

Definition emit (e : Event) (w : World) : World :=
  mkWorld (now w) (localStorage w) (setItem_throws w) (network w) (latency w)
          (trace w ++ [e]).

(** ** Exceptions and state *)

Inductive Error : Type :=
| QuotaExceededError
| SyntaxError
| TypeError
| HTTPError (status : Z).

Inductive Result (A : Type) : Type :=
| Ok (a : A)
| Throw (e : Error).
Arguments Ok {A} a.
Arguments Throw {A} e.

Definition M (S A : Type) : Type := S → Result A * S.

Definition ret {S A} (a : A) : M S A := λ s, (Ok a, s).

Definition bind {S A B} (m : M S A) (k : A → M S B) : M S B :=
  λ s, match m s with
       | (Ok a, s') => k a s'
       | (Throw e, s') => (Throw e, s')
       end.

Definition throw {S A} (e : Error) : M S A := λ s, (Throw e, s).

(** [try { body } catch (error) { handler }]: the state reached when the
    exception was raised is kept. *)
Definition try_catch {S A} (body : M S A) (handler : Error → M S A) : M S A :=
  λ s, match body s with
       | (Ok a, s') => (Ok a, s')
       | (Throw e, s') => handler e s'
       end.

Definition gets {S A} (f : S → A) : M S A := λ s, (Ok (f s), s).
Definition modify {S} (f : S → S) : M S unit := λ s, (Ok tt, f s).

Declare Scope js_scope.
Delimit Scope js_scope with js.
Notation "x <- m ;; k" := (bind m (λ x, k))
  (at level 100, m at next level, right associativity) : js_scope.
Notation "m ;;; k" := (bind m (λ _, k))
  (at level 100, right associativity) : js_scope.

(** The value a run returns and the state it leaves. *)
Definition result {S A} (m : M S A) (s : S) : Result A := (m s).1.
Definition after {S A} (m : M S A) (s : S) : S := (m s).2.

(** A computation on the world, run by an object whose own fields it does
    not touch. *)
Definition liftW {O A} (m : M World A) : M (O * World) A :=
  λ '(o, w), let '(r, w') := m w in (r, (o, w')).

(** ** Browser primitives *)

Definition Date_now : M World Z := gets now.

Definition localStorage_getItem (key : string) : M World (option string) :=
  gets (λ w, localStorage w !! key).

Definition localStorage_setItem (key value : string) : M World unit :=
  λ w, let w := emit (EvSetItem key value) w in
       if setItem_throws w then (Throw QuotaExceededError, w)
       else (Ok tt, set_localStorage (<[key := value]> (localStorage w)) w).

Definition localStorage_removeItem (key : string) : M World unit :=
  λ w, let w := emit (EvRemoveItem key) w in
       (Ok tt, set_localStorage (delete key (localStorage w)) w).

(** [await fetch(url)]: the call is recorded, the lookup takes [latency]
    milliseconds, and a rejected promise is a thrown exception. *)
Definition fetch (url : string) : M World Response :=
  λ w, let w := set_now (now w + latency w) (emit (EvFetch url) w) in
       match network w url with
       | None => (Throw TypeError, w)
       | Some response => (Ok response, w)
       end.

(** [await response.json()] *)
Definition Response_json (response : Response) : M World GeoData :=
  match body response with
  | Some data => ret data
  | None => throw SyntaxError
  end.

(** [String.prototype.includes] *)
Fixpoint includes (s search : string) : bool :=
  if String.prefix search s then true
  else match s with
       | EmptyString => false
       | String _ s' => includes s' search
       end.

(** [Array.prototype.includes] on an array of strings; [None] is
    [undefined], which no element equals. *)
Definition Array_includes (xs : list string) (x : option string) : bool :=
  match x with
  | Some x => existsb (String.eqb x) xs
  | None => false
  end.

(** [a || b || false] on fields that are booleans or [undefined]. *)
Definition or_false (a b : option bool) : bool :=
  match a with
  | Some true => true
  | _ => match b with
         | Some true => true
         | _ => false
         end
  end.

(** [a || d] on a string that may be [undefined] (or empty). *)
Definition or_string (a : option string) (d : string) : string :=
  match a with
  | Some EmptyString | None => d
  | Some s => s
  end.

(** ** The classes' fields *)

Definition STORAGE_KEY : string := "cookiedialog_consent".
Definition STORAGE_VERSION : string := "1.0.0".

Record ConsentStorage : Type := mkConsentStorage {
  expiryDays : Z
}.

(** [constructor(expiryDays: number = 365)] *)
Definition new_ConsentStorage (expiryDays : option Z) : ConsentStorage :=
  mkConsentStorage (default 365 expiryDays).

Record GeolocationService : Type := mkGeolocationService {
  endpoint : string;
  cache : option GeolocationResponse;
  cacheTimestamp : Z
}.

Definition CACHE_DURATION : Z := 3600000.

(** [constructor(customEndpoint?: string)] *)
Definition new_GeolocationService (customEndpoint : option string) : GeolocationService :=
  mkGeolocationService (or_string customEndpoint "https://ipapi.co/json/") None 0.

Inductive Position : Type := bottom | top | center.

(** [Translations], at the fields the category list reads. *)
Record Translations : Type := mkTranslations {
  necessaryCategory : option string;
  necessaryDescription : option string
}.

(** The configuration the caller passes ([Partial<CookieDialogConfig>]);
    a hook is represented by whether it is supplied. *)
Module UserConfig.
Record t : Type := mk {
  enableLocation : option bool;
  autoShow : option bool;
  position : option Position;
  expiryDays : option Z;
  forceShow : option bool;
  categories : option (list CookieCategory);
  translations : option Translations;
  onAccept : bool;
  onReject : bool;
  onChange : bool;
  onLocationNotRequired : bool;
  geolocationEndpoint : option string
}.
End UserConfig.

(** The configuration after [mergeConfig]. *)
Module Config.
Record t : Type := mk {
  enableLocation : bool;
  autoShow : bool;
  position : Position;
  expiryDays : Z;
  forceShow : bool;
  categories : option (list CookieCategory);
  translations : option Translations;
  onAccept : bool;
  onReject : bool;
  onChange : bool;
  onLocationNotRequired : bool;
  geolocationEndpoint : option string
}.
End Config.

(** The rendered dialog: whether its class list has [show], and its
    [input[data-category]] checkboxes with their [checked] state. *)
Record DialogElement : Type := mkDialogElement {
  shown : bool;
  checkboxes : list (string * bool)
}.

Module CookieDialog.
Record t : Type := mk {
  config : Config.t;
  storage : ConsentStorage;
  geolocation : option GeolocationService;
  dialogElement : option DialogElement;
  overlayElement : option bool;     (* the overlay, with whether it has [show] *)
  settingsOpen : bool;
  categories : list CookieCategory;
  translations : Translations
}.

Definition set_geolocation (g : option GeolocationService) (d : t) : t :=
  mk (config d) (storage d) g (dialogElement d) (overlayElement d)
     (settingsOpen d) (categories d) (translations d).

Definition set_dialogElement (e : option DialogElement) (d : t) : t :=
  mk (config d) (storage d) (geolocation d) e (overlayElement d)
     (settingsOpen d) (categories d) (translations d).

Definition set_overlayElement (e : option bool) (d : t) : t :=
  mk (config d) (storage d) (geolocation d) (dialogElement d) e
     (settingsOpen d) (categories d) (translations d).
End CookieDialog.

(** ** A reference codec

    A serialisation of consent records into strings through stdpp's
    numbering of countable types, written in binary behind a leading
    [#]; it inhabits the assumptions made on [JSON.stringify] and
    [JSON.parse] below. *)

Global Instance Reason_eq_dec : EqDecision Reason.
Proof. solve_decision. Defined.

Global Instance LocationData_eq_dec : EqDecision LocationData.
Proof. solve_decision. Defined.

Global Instance ConsentState_eq_dec : EqDecision ConsentState.
Proof. solve_decision. Defined.

Global Instance GeolocationResponse_eq_dec : EqDecision GeolocationResponse.
Proof. solve_decision. Defined.

Global Instance CookieCategory_eq_dec : EqDecision CookieCategory.
Proof. solve_decision. Defined.

Module Codec.

Definition Reason_to_nat (r : Reason) : nat :=
  match r with
  | user_accept => 0
  | user_reject => 1
  | location_not_required => 2
  end.

Definition Reason_of_nat (n : nat) : option Reason :=
  match n with
  | O => Some user_accept
  | S O => Some user_reject
  | S (S O) => Some location_not_required
  | _ => None
  end.

Definition LocationData_to_tuple (l : LocationData) :=
  (ld_country l, ld_region l, ld_inEU l, detectionMethod l).

Definition LocationData_of_tuple
    (t : option string * option string * bool * string) : LocationData :=
  let '(c, r, e, m) := t in mkLocationData c r e m.

Definition ConsentState_to_tuple (c : ConsentState) :=
  (timestamp c, categories c, version c, reason c, locationData c).

Definition ConsentState_of_tuple
    (t : Z * gmap string bool * string * Reason * option LocationData) : ConsentState :=
  let '(ts, cs, v, r, l) := t in mkConsentState ts cs v r l.

Fixpoint bits (p : positive) : string :=
  match p with
  | xH => EmptyString
  | xO p => String "0" (bits p)
  | xI p => String "1" (bits p)
  end.

Fixpoint of_bits (s : string) : option positive :=
  match s with
  | EmptyString => Some xH
  | String "0" s => xO <$> of_bits s
  | String "1" s => xI <$> of_bits s
  | String _ _ => None
  end.

End Codec.

Global Instance Reason_countable : Countable Reason.
Proof.
  apply (inj_countable Codec.Reason_to_nat Codec.Reason_of_nat).
  by intros [].
Defined.

Global Instance LocationData_countable : Countable LocationData.
Proof.
  apply (inj_countable' Codec.LocationData_to_tuple Codec.LocationData_of_tuple).
  by intros [].
Defined.

Global Instance ConsentState_countable : Countable ConsentState.
Proof.
  apply (inj_countable' Codec.ConsentState_to_tuple Codec.ConsentState_of_tuple).
  by intros [].
Defined.

Definition stringify (c : ConsentState) : string :=
  String "#" (Codec.bits (encode c)).

Definition parse (s : string) : option ConsentState :=
  match s with
  | String "#" s => Codec.of_bits s ≫= decode
  | _ => None
  end.

Arguments stringify : simpl never.
Arguments parse : simpl never.

Section Engine.

(** ** [src/storage.ts]: class [ConsentStorage] *)

(** [JSON.stringify] on a consent record, and [JSON.parse] read at the type
    the source asserts ([as ConsentState]); [None] is a thrown
    [SyntaxError]. *)
Variable JSON_stringify : ConsentState → string.
Variable JSON_parse : string → option ConsentState.

Definition JSON_parse_or_throw (s : string) : M World ConsentState :=
  match JSON_parse s with
  | Some c => ret c
  | None => throw SyntaxError
  end.

Definition clearConsent (this : ConsentStorage) : M World unit :=
  try_catch (localStorage_removeItem STORAGE_KEY) (λ _, ret tt).

Definition getConsent (this : ConsentStorage) : M World (option ConsentState) :=
  try_catch
    (stored <- localStorage_getItem STORAGE_KEY ;;
     match stored with
     | None => ret None
     | Some EmptyString => ret None
     | Some stored =>
         consent <- JSON_parse_or_throw stored ;;
         let expiryTime := timestamp consent + expiryDays this * 24 * 60 * 60 * 1000 in
         t <- Date_now ;;
         if t >? expiryTime then
           (clearConsent this ;;; ret None)
         else if negb (String.eqb (version consent) STORAGE_VERSION) then
           (clearConsent this ;;; ret None)
         else ret (Some consent)
     end)%js
    (λ _, ret None).

Definition saveConsent (this : ConsentStorage) (categories : gmap string bool)
    (reason : Reason) (locationData : option LocationData) : M World ConsentState :=
  (t <- Date_now ;;
   let consent := mkConsentState t categories STORAGE_VERSION reason locationData in
   try_catch (localStorage_setItem STORAGE_KEY (JSON_stringify consent))
             (λ _, ret tt) ;;;
   ret consent)%js.

Definition hasConsent (this : ConsentStorage) : M World bool :=
  (consent <- getConsent this ;;
   ret (bool_decide (consent ≠ None)))%js.

Definition getCategoryConsent (this : ConsentStorage) (categoryId : string) : M World bool :=
  (consent <- getConsent this ;;
   match consent with
   | None => ret false
   | Some consent => ret (bool_decide (categories consent !! categoryId = Some true))
   end)%js.

Definition updateCategoryConsent (this : ConsentStorage) (categoryId : string)
    (value : bool) : M World (option ConsentState) :=
  (consent <- getConsent this ;;
   match consent with
   | None => ret None
   | Some consent =>
       let consent := set_categories consent (<[categoryId := value]> (categories consent)) in
       t <- Date_now ;;
       let consent := set_timestamp consent t in
       try_catch
         (localStorage_setItem STORAGE_KEY (JSON_stringify consent) ;;;
          ret (Some consent))
         (λ _, ret None)
   end)%js.

(** ** [src/geolocation.ts]: class [GeolocationService] *)

Definition euCountries : list string :=
  [ "AT"; "BE"; "BG"; "HR"; "CY"; "CZ"; "DK"; "EE"; "FI"; "FR";
    "DE"; "GR"; "HU"; "IE"; "IT"; "LV"; "LT"; "LU"; "MT"; "NL";
    "PL"; "PT"; "RO"; "SK"; "SI"; "ES"; "SE"; "GB"; "IS"; "LI"; "NO" ].

(** The ipapi.co format. *)
Definition ipapi_result (data : GeoData) : GeolocationResponse :=
  mkGeolocationResponse (Array_includes euCountries (country_code data))
                        (country_name data) (data_region data).

(** The format expected of a custom endpoint. *)
Definition custom_result (data : GeoData) : GeolocationResponse :=
  mkGeolocationResponse (or_false (data_inEU data) (in_eu data))
                        (data_country data) (data_region data).

(** The result returned when the lookup fails. *)
Definition failsafe_result : GeolocationResponse :=
  mkGeolocationResponse true None None.

Definition set_cache (result : GeolocationResponse) (t : Z)
    : M (GeolocationService * World) unit :=
  modify (λ '(this, w), (mkGeolocationService (endpoint this) (Some result) t, w)).

(** The [try { } catch { }] of [checkLocation]: one lookup, its result
    adapted and cached, and the fail-safe result on any exception. *)
Definition checkLocation_lookup : M (GeolocationService * World) GeolocationResponse :=
  try_catch
    (this <- gets fst ;;
     response <- liftW (fetch (endpoint this)) ;;
     (if negb (ok response) then throw (HTTPError (status response)) else ret tt) ;;;
     data <- liftW (Response_json response) ;;
     let result :=
       if includes (endpoint this) "ipapi.co" then ipapi_result data
       else custom_result data in
     t <- liftW Date_now ;;
     set_cache result t ;;;
     ret result)%js
    (λ _, ret failsafe_result).

Definition checkLocation : M (GeolocationService * World) GeolocationResponse :=
  (this <- gets fst ;;
   match cache this with
   | Some cached =>
       t <- liftW Date_now ;;
       if t - cacheTimestamp this <? CACHE_DURATION then ret cached
       else checkLocation_lookup
   | None => checkLocation_lookup
   end)%js.

Definition isGDPRRequired : M (GeolocationService * World) bool :=
  (location <- checkLocation ;;
   ret (inEU location))%js.

Definition clearCache : M (GeolocationService * World) unit :=
  modify (λ '(this, w), (mkGeolocationService (endpoint this) None 0, w)).

(** ** [src/index.ts]: class [CookieDialog] *)

Definition mergeConfig (userConfig : UserConfig.t) : Config.t :=
  Config.mk
    (default false (UserConfig.enableLocation userConfig))
    (default true (UserConfig.autoShow userConfig))
    (default bottom (UserConfig.position userConfig))
    (default 365 (UserConfig.expiryDays userConfig))
    (default false (UserConfig.forceShow userConfig))
    (UserConfig.categories userConfig)
    (UserConfig.translations userConfig)
    (UserConfig.onAccept userConfig)
    (UserConfig.onReject userConfig)
    (UserConfig.onChange userConfig)
    (UserConfig.onLocationNotRequired userConfig)
    (UserConfig.geolocationEndpoint userConfig).

Definition getDefaultTranslations : Translations :=
  mkTranslations (Some "Necessary")
                 (Some "Essential cookies for the website to function properly").

Definition getDefaultCategories (translations : Translations) : list CookieCategory :=
  [ mkCookieCategory "necessary"
      (or_string (necessaryCategory translations) "Necessary")
      (or_string (necessaryDescription translations)
                 "Essential cookies for the website to function properly")
      true;
    mkCookieCategory "analytics" "Analytics"
      "Cookies to understand how visitors interact with the website" false;
    mkCookieCategory "marketing" "Marketing"
      "Cookies to deliver personalized advertisements" false ].

(** [constructor(config: Partial<CookieDialogConfig> = {})] *)
Definition new_CookieDialog (config : UserConfig.t) : CookieDialog.t :=
  let config := mergeConfig config in
  let storage := new_ConsentStorage (Some (Config.expiryDays config)) in
  let translations := default getDefaultTranslations (Config.translations config) in
  let categories := default (getDefaultCategories translations) (Config.categories config) in
  let geolocation :=
    if Config.enableLocation config
    then Some (new_GeolocationService (Config.geolocationEndpoint config))
    else None in
  CookieDialog.mk config storage geolocation None None false categories translations.

(** A call on [this.geolocation]. *)
Definition on_geolocation {A} (g : GeolocationService)
    (m : M (GeolocationService * World) A) : M (CookieDialog.t * World) A :=
  λ '(this, w), let '(r, (g', w')) := m (g, w) in
                (r, (CookieDialog.set_geolocation (Some g') this, w')).

(** [if (hook) hook(args)] *)
Definition invoke (supplied : bool) (call : Event) : M (CookieDialog.t * World) unit :=
  if supplied then liftW (modify (emit call)) else ret tt.

(** [const consent = {}; this.categories.forEach(cat => { consent[cat.id] = f(cat) })] *)
Definition forEach_category (f : CookieCategory → bool) (cats : list CookieCategory)
    : gmap string bool :=
  foldl (λ consent cat, <[id cat := f cat]> consent) ∅ cats.

Fixpoint renderCategories (storage : ConsentStorage) (cats : list CookieCategory)
    : M World (list (string * bool)) :=
  match cats with
  | [] => ret []
  | category :: rest =>
      (consented <- getCategoryConsent storage (id category) ;;
       boxes <- renderCategories storage rest ;;
       ret ((id category, required category || consented) :: boxes))%js
  end.

Definition render : M (CookieDialog.t * World) unit :=
  (this <- gets fst ;;
   (if Config.position (CookieDialog.config this) is center
    then modify (λ '(this, w), (CookieDialog.set_overlayElement (Some true) this, w))
    else ret tt) ;;;
   boxes <- liftW (renderCategories (CookieDialog.storage this)
                                    (CookieDialog.categories this)) ;;
   modify (λ '(this, w),
     (CookieDialog.set_dialogElement (Some (mkDialogElement true boxes)) this, w)))%js.

Definition show : M (CookieDialog.t * World) unit :=
  (this <- gets fst ;;
   match CookieDialog.dialogElement this with
   | Some el =>
       modify (λ '(this, w),
         (CookieDialog.set_dialogElement
            (Some (mkDialogElement true (checkboxes el))) this, w)) ;;;
       match CookieDialog.overlayElement this, Config.position (CookieDialog.config this) with
       | Some _, center =>
           modify (λ '(this, w), (CookieDialog.set_overlayElement (Some true) this, w))
       | _, _ => ret tt
       end
   | None => render
   end)%js.

Definition hide : M (CookieDialog.t * World) unit :=
  modify (λ '(this, w),
    let this :=
      match CookieDialog.dialogElement this with
      | Some el =>
          CookieDialog.set_dialogElement (Some (mkDialogElement false (checkboxes el))) this
      | None => this
      end in
    let this :=
      match CookieDialog.overlayElement this with
      | Some _ => CookieDialog.set_overlayElement (Some false) this
      | None => this
      end in
    (this, w)).

Definition destroy : M (CookieDialog.t * World) unit :=
  modify (λ '(this, w),
    (CookieDialog.set_overlayElement None (CookieDialog.set_dialogElement None this), w)).

(** The geolocation branch of [init]; [true] when it returned from [init]. *)
Definition init_location : M (CookieDialog.t * World) bool :=
  (this <- gets fst ;;
   let config := CookieDialog.config this in
   match Config.enableLocation config, CookieDialog.geolocation this with
   | true, Some geolocation =>
       try_catch
         (locationData <- on_geolocation geolocation checkLocation ;;
          if negb (inEU locationData) && negb (Config.forceShow config) then
            let consent := forEach_category (λ _, true) (CookieDialog.categories this) in
            consentState <- liftW (saveConsent (CookieDialog.storage this) consent
                                     location_not_required
                                     (Some (mkLocationData (country locationData)
                                              (region locationData) (inEU locationData)
                                              "ip_geolocation"))) ;;
            invoke (Config.onLocationNotRequired config)
                   (EvOnLocationNotRequired
                      (mkGeolocationResponse (inEU locationData) (country locationData)
                                             (region locationData))) ;;;
            invoke (Config.onAccept config) (EvOnAccept consentState) ;;;
            ret true
          else ret false)
         (λ _, ret false)
   | _, _ => ret false
   end)%js.

Definition init : M (CookieDialog.t * World) unit :=
  (this <- gets fst ;;
   let config := CookieDialog.config this in
   existing <- (if negb (Config.forceShow config)
                then liftW (hasConsent (CookieDialog.storage this))
                else ret false) ;;
   if existing : bool then
     consent <- liftW (getConsent (CookieDialog.storage this)) ;;
     match consent with
     | Some consent => invoke (Config.onAccept config) (EvOnAccept consent)
     | None => ret tt
     end
   else
     returned <- init_location ;;
     if returned : bool then ret tt
     else if Config.autoShow config then show
     else ret tt)%js.

Definition acceptAll : M (CookieDialog.t * World) unit :=
  (this <- gets fst ;;
   let consent := forEach_category (λ _, true) (CookieDialog.categories this) in
   state <- liftW (saveConsent (CookieDialog.storage this) consent user_accept None) ;;
   hide ;;;
   invoke (Config.onAccept (CookieDialog.config this)) (EvOnAccept state))%js.

Definition rejectAll : M (CookieDialog.t * World) unit :=
  (this <- gets fst ;;
   let consent := forEach_category required (CookieDialog.categories this) in
   liftW (saveConsent (CookieDialog.storage this) consent user_reject None) ;;;
   hide ;;;
   invoke (Config.onReject (CookieDialog.config this)) EvOnReject)%js.

Definition saveSettings : M (CookieDialog.t * World) unit :=
  (this <- gets fst ;;
   let boxes :=
     match CookieDialog.dialogElement this with
     | Some el => checkboxes el
     | None => []
     end in
   let consent :=
     foldl (λ consent '(categoryId, checked),
              if String.eqb categoryId EmptyString then consent
              else <[categoryId := checked]> consent) ∅ boxes in
   state <- liftW (saveConsent (CookieDialog.storage this) consent user_accept None) ;;
   hide ;;;
   invoke (Config.onChange (CookieDialog.config this)) (EvOnChange state))%js.

Definition resetConsent : M (CookieDialog.t * World) unit :=
  (this <- gets fst ;;
   liftW (clearConsent (CookieDialog.storage this)))%js.

(** ** The specification's notions *)

(** Every category the configuration declares required is granted. *)
Definition requiredTrue (cats : list CookieCategory) (C : gmap string bool) : Prop :=
  ∀ cat, cat ∈ cats → required cat = true → C !! id cat = Some true.

(** [C] with every required category forced to [true]. *)
Definition forceRequired (cats : list CookieCategory) (C : gmap string bool)
    : gmap string bool :=
  foldr (λ cat C, if required cat then <[id cat := true]> C else C) C cats.

(** The milliseconds of [d] days. *)
Definition days (d : Z) : Z := d * 86400000.

(** A record the store accepts at time [t]: unexpired and of the current
    version. *)
Definition valid_at (this : ConsentStorage) (t : Z) (c : ConsentState) : Prop :=
  t ≤ timestamp c + days (expiryDays this) ∧ version c = STORAGE_VERSION.

(** The world after [removeItem] of the consent key. *)
Definition erased (w : World) : World :=
  set_localStorage (delete STORAGE_KEY (localStorage w)) (emit (EvRemoveItem STORAGE_KEY) w).

(** The world after a [setItem] of the consent key that went through. *)
Definition stored (value : string) (w : World) : World :=
  set_localStorage (<[STORAGE_KEY := value]> (localStorage w))
                   (emit (EvSetItem STORAGE_KEY value) w).

(** Reads at the successive clock readings [ts]: what each returned, and
    the world left by the last. *)
Fixpoint read_at_times (this : ConsentStorage) (ts : list Z) (w : World)
    : list (Result (option ConsentState)) * World :=
  match ts with
  | [] => ([], w)
  | t :: ts =>
      let '(r, w') := getConsent this (set_now t w) in
      let '(rs, w'') := read_at_times this ts w' in
      (r :: rs, w'')
  end.

(** Sequences of store operations, interleaved with the environment moving
    the clock and filling or freeing the storage quota. *)
Inductive StoreOp : Type :=
| OpWrite (C : gmap string bool) (R : Reason) (L : option LocationData)
| OpUpdateCategory (categoryId : string) (value : bool)
| OpClear
| OpRead
| OpEnvironment (t : Z) (throws : bool).

(** One operation: the record it hands back if it is a read that returns
    one, and the world it leaves. *)
Definition run_op (this : ConsentStorage) (op : StoreOp) (w : World)
    : option ConsentState * World :=
  match op with
  | OpWrite C R L => (None, after (saveConsent this C R L) w)
  | OpUpdateCategory categoryId value =>
      (None, after (updateCategoryConsent this categoryId value) w)
  | OpClear => (None, after (clearConsent this) w)
  | OpRead =>
      match getConsent this w with
      | (Ok r, w') => (r, w')
      | (Throw _, w') => (None, w')
      end
  | OpEnvironment t throws => (None, set_setItem_throws throws (set_now t w))
  end.

(** The records the reads of a sequence return. *)
Fixpoint reads (this : ConsentStorage) (ops : list StoreOp) (w : World)
    : list ConsentState :=
  match ops with
  | [] => []
  | op :: ops =>
      let '(r, w') := run_op this op w in
      option_list r ++ reads this ops w'
  end.

(** An operation whose caller keeps the required categories granted. *)
Definition respects (cats : list CookieCategory) (op : StoreOp) : Prop :=
  match op with
  | OpWrite C _ _ => requiredTrue cats C
  | OpUpdateCategory categoryId value =>
      value = false → ∀ cat, cat ∈ cats → required cat = true → id cat ≠ categoryId
  | _ => True
  end.

(** Both as boolean checks. *)
Definition requiredTrueb (cats : list CookieCategory) (C : gmap string bool) : bool :=
  forallb (λ cat, implb (required cat) (bool_decide (C !! id cat = Some true))) cats.

Definition respectsb (cats : list CookieCategory) (op : StoreOp) : bool :=
  match op with
  | OpWrite C _ _ => requiredTrueb cats C
  | OpUpdateCategory categoryId value =>
      value || forallb (λ cat, implb (required cat)
                                     (negb (String.eqb (id cat) categoryId))) cats
  | _ => true
  end.

(** The invariant the well-behaved sequences keep: the stored entry, if it
    parses, grants the required categories. *)
Definition store_inv (cats : list CookieCategory) (w : World) : Prop :=
  ∀ s c, localStorage w !! STORAGE_KEY = Some s → JSON_parse s = Some c →
         requiredTrue cats (categories c).

(** The cache does not answer: it is empty or an hour old. *)
Definition cache_miss (this : GeolocationService) (w : World) : Prop :=
  cache this = None ∨ CACHE_DURATION ≤ now w - cacheTimestamp this.

(** The prompt is on screen: the dialog is rendered and has [show]. *)
Definition prompt_shown (this : CookieDialog.t) : Prop :=
  ∃ el, CookieDialog.dialogElement this = Some el ∧ shown el = true.

(** The world [init] consults the resolver in: after the check for an
    existing record, which is skipped under [forceShow]. *)
Definition before_location (this : CookieDialog.t) (w : World) : World :=
  if Config.forceShow (CookieDialog.config this) then w
  else after (hasConsent (CookieDialog.storage this)) w.

(** [init] comes to its last step: no valid record is stored, and
    geolocation is disabled, or [forceShow] is set, or the resolver reports
    a region that requires consent (as it does when the lookup failed). *)
Definition reaches_prompt_step (this : CookieDialog.t) (w : World) : Prop :=
  let config := CookieDialog.config this in
  result (hasConsent (CookieDialog.storage this)) w = Ok false
  ∧ (Config.enableLocation config = false
     ∨ CookieDialog.geolocation this = None
     ∨ Config.forceShow config = true
     ∨ ∃ g loc, CookieDialog.geolocation this = Some g
                ∧ result checkLocation (g, before_location this w) = Ok loc
                ∧ inEU loc = true).

(** The record [init] writes for a visitor whose region is exempt. *)
Definition exempt_record (this : CookieDialog.t) (loc : GeolocationResponse) (t : Z)
    : ConsentState :=
  mkConsentState t (forEach_category (λ _, true) (CookieDialog.categories this))
    STORAGE_VERSION location_not_required
    (Some (mkLocationData (country loc) (region loc) (inEU loc) "ip_geolocation")).

(** The hooks [init] calls after writing that record. *)
Definition exempt_hooks (config : Config.t) (loc : GeolocationResponse)
    (consent : ConsentState) : list Event :=
  (if Config.onLocationNotRequired config
   then [EvOnLocationNotRequired
           (mkGeolocationResponse (inEU loc) (country loc) (region loc))]
   else [])
  ++ (if Config.onAccept config then [EvOnAccept consent] else []).

(** *** The claims in the specification's words *)

(** Round trip, with the store forcing the required categories. *)
Definition roundtrip_forcing_required (cats : list CookieCategory)
    (this : ConsentStorage) (C : gmap string bool) (R : Reason) (w : World) : Prop :=
  ∃ rec, result (getConsent this) (after (saveConsent this C R None) w) = Ok (Some rec)
         ∧ categories rec = forceRequired cats C
         ∧ reason rec = R.

(** Every record a read returns grants the required categories. *)
Definition reads_grant_required (cats : list CookieCategory)
    (this : ConsentStorage) (ops : list StoreOp) (w : World) : Prop :=
  ∀ rec, rec ∈ reads this ops w → requiredTrue cats (categories rec).

(** [init] shows the prompt whenever it comes to its last step. *)
Definition init_shows_prompt (this : CookieDialog.t) (w : World) : Prop :=
  reaches_prompt_step this w → prompt_shown (after init (this, w)).1.

(** An update whose [setItem] throws still returns the record it updated. *)
Definition update_fails_open (this : ConsentStorage) (categoryId : string)
    (value : bool) (w : World) : Prop :=
  setItem_throws w = true →
  ∀ c, result (getConsent this) w = Ok (Some c) →
       result (updateCategoryConsent this categoryId value) w =
         Ok (Some (set_timestamp
                     (set_categories c (<[categoryId := value]> (categories c)))
                     (now w))).

(** *** Notions for the remaining operations *)

(** The stored entry is one the typed reading of [JSON_parse] covers: it is
    absent, empty, not JSON, or the text of a [ConsentState]. *)
Definition typed_entry (w : World) : Prop :=
  ∀ s, localStorage w !! STORAGE_KEY = Some s →
       s = EmptyString ∨ JSON_parse s = None ∨ ∃ c, s = JSON_stringify c.

(** Two worlds agree on everything but the consent entry and the trace. *)
Definition same_outside_consent (w w' : World) : Prop :=
  now w' = now w
  ∧ setItem_throws w' = setItem_throws w
  ∧ network w' = network w
  ∧ latency w' = latency w
  ∧ ∀ key, key ≠ STORAGE_KEY → localStorage w' !! key = localStorage w !! key.

(** The lookups recorded in a trace. *)
Definition is_fetch (e : Event) : bool :=
  match e with
  | EvFetch _ => true
  | _ => false
  end.

Definition lookups (tr : list Event) : nat := length (filter (λ e, is_fetch e = true) tr).

(** The storage writes recorded in a trace. *)
Definition is_setItem (e : Event) : bool :=
  match e with
  | EvSetItem _ _ => true
  | _ => false
  end.

Definition storage_writes (tr : list Event) : nat :=
  length (filter (λ e, is_setItem e = true) tr).

(** The record with one category set and the timestamp refreshed, as
    [updateCategoryConsent] builds it. *)
Definition updated_record (c : ConsentState) (categoryId : string) (value : bool)
    (t : Z) : ConsentState :=
  set_timestamp (set_categories c (<[categoryId := value]> (categories c))) t.

(** The dialog with its elements, if rendered, out of sight. *)
Definition hidden (this : CookieDialog.t) : CookieDialog.t :=
  let this :=
    match CookieDialog.dialogElement this with
    | Some el =>
        CookieDialog.set_dialogElement (Some (mkDialogElement false (checkboxes el))) this
    | None => this
    end in
  match CookieDialog.overlayElement this with
  | Some _ => CookieDialog.set_overlayElement (Some false) this
  | None => this
  end.

(** The checkboxes [render] draws when the stored consent is [consent]. *)
Definition rendered_checkboxes (consent : option ConsentState)
    (cats : list CookieCategory) : list (string * bool) :=
  (λ cat, (id cat,
           required cat
           || match consent with
              | Some c => bool_decide (categories c !! id cat = Some true)
              | None => false
              end)) <$> cats.

(** The mapping [saveSettings] reads off the checkboxes. *)
Definition checked_categories (boxes : list (string * bool)) : gmap string bool :=
  foldl (λ consent '(categoryId, checked),
           if String.eqb categoryId EmptyString then consent
           else <[categoryId := checked]> consent) ∅ boxes.

(** The trace of [w'] continues the trace of [w] with at most [n] lookups
    and at most [m] storage writes. *)
Definition trace_grows (n m : nat) (w w' : World) : Prop :=
  ∃ tr, trace w' = trace w ++ tr
        ∧ (lookups tr ≤ n)%nat ∧ (storage_writes tr ≤ m)%nat.

(** ** Concrete environments

    The scenarios of the specification, as inputs the properties below are
    run on. *)

Definition fresh_world : World :=
  mkWorld 1700000000000 ∅ false (λ _, None) 120 [].

Definition default_storage : ConsentStorage := new_ConsentStorage None.

Definition default_categories : list CookieCategory :=
  getDefaultCategories getDefaultTranslations.

(** The record of scenario C, one day old. *)
Definition scenario_record : ConsentState :=
  mkConsentState (1700000000000 - 86400000)
    (<["necessary" := true]> (<["analytics" := false]> (<["marketing" := true]> ∅)))
    STORAGE_VERSION user_accept None.

Definition world_with_consent : World :=
  set_localStorage (<[STORAGE_KEY := stringify scenario_record]> ∅) fresh_world.

Definition world_with_garbage : World :=
  set_localStorage (<[STORAGE_KEY := "{not json"]> ∅) fresh_world.

Definition world_over_quota : World :=
  set_setItem_throws true world_with_consent.

Definition response_us : Response :=
  mkResponse true 200
    (Some (mkGeoData (Some "US") (Some "United States") (Some "California")
                     None None None)).

Definition world_in_us : World :=
  set_network (λ _, Some response_us) fresh_world.

Definition all_hooks (enableLocation autoShow : option bool) : UserConfig.t :=
  UserConfig.mk enableLocation autoShow None None None None None
                true true true true None.

Definition dialog_default : CookieDialog.t := new_CookieDialog (all_hooks None None).

Definition dialog_with_location : CookieDialog.t :=
  new_CookieDialog (all_hooks (Some true) None).

Definition dialog_without_autoShow : CookieDialog.t :=
  new_CookieDialog (all_hooks None (Some false)).

Definition proxy_service : GeolocationService :=
  new_GeolocationService (Some "https://geo.example.com/ipapi.co/json").

(** A caller that withdraws a required category through the store. *)
Definition withdraw_necessary : list StoreOp :=
  [ OpWrite (<["necessary" := true]> (<["analytics" := true]> ∅)) user_accept None;
    OpUpdateCategory "necessary" false;
    OpRead ].

(** A caller that leaves the required category alone. *)
Definition toggle_analytics : list StoreOp :=
  [ OpWrite (<["necessary" := true]> (<["analytics" := false]> ∅)) user_accept None;
    OpRead;
    OpUpdateCategory "analytics" true;
    OpEnvironment (1700000000000 + 86400000) true;
    OpUpdateCategory "analytics" false;
    OpRead;
    OpClear;
    OpRead ].

(** A lookup answered by a success status and a page that is not JSON. *)
Definition world_not_json : World :=
  set_network (λ _, Some (mkResponse true 200 None)) fresh_world.

(** A lookup answered by a JSON body that names no country. *)
Definition world_silent : World :=
  set_network (λ _, Some (mkResponse true 200
                            (Some (mkGeoData None None None None None None))))
              fresh_world.

(** A record of an earlier schema version. *)
Definition old_record : ConsentState :=
  mkConsentState 1700000000000 (<["necessary" := true]> ∅) "0.9.0" user_accept None.

Definition world_with_old_version : World :=
  set_localStorage (<[STORAGE_KEY := stringify old_record]> ∅) fresh_world.

Definition dialog_forced : CookieDialog.t :=
  new_CookieDialog
    (UserConfig.mk None None None None (Some true) None None true true true true None).

Definition dialog_rendered : CookieDialog.t :=
  CookieDialog.set_dialogElement
    (Some (mkDialogElement true [("necessary", true); ("analytics", false)]))
    dialog_default.

(** ** Properties of the store *)

Lemma days_unfold d : d * 24 * 60 * 60 * 1000 = days d.
Proof. unfold days. lia. Qed.

Lemma getConsent_absent this w :
  localStorage w !! STORAGE_KEY = None →
  getConsent this w = (Ok None, w).
Proof.
  intros H. unfold getConsent, try_catch, bind, localStorage_getItem, gets.
  by rewrite H.
Qed.

Lemma getConsent_empty this w :
  localStorage w !! STORAGE_KEY = Some EmptyString →
  getConsent this w = (Ok None, w).
Proof.
  intros H. unfold getConsent, try_catch, bind, localStorage_getItem, gets.
  by rewrite H.
Qed.

Lemma getConsent_malformed this w s :
  localStorage w !! STORAGE_KEY = Some s →
  JSON_parse s = None →
  getConsent this w = (Ok None, w).
Proof.
  intros H Hp. unfold getConsent, try_catch, bind, localStorage_getItem, gets.
  rewrite H. destruct s; [done|].
  unfold JSON_parse_or_throw. by rewrite Hp.
Qed.

Lemma getConsent_parsed this w s c :
  localStorage w !! STORAGE_KEY = Some s →
  s ≠ EmptyString →
  JSON_parse s = Some c →
  getConsent this w =
    if now w >? timestamp c + days (expiryDays this) then (Ok None, erased w)
    else if negb (String.eqb (version c) STORAGE_VERSION) then (Ok None, erased w)
    else (Ok (Some c), w).
Proof.
  intros H Hne Hp. unfold getConsent, try_catch, bind, localStorage_getItem, gets.
  rewrite H. destruct s; [done|].
  unfold JSON_parse_or_throw. rewrite Hp. cbn [ret].
  rewrite days_unfold. unfold Date_now, gets.
  destruct (now w >? _); [done|].
  by destruct (negb _).
Qed.

Lemma getConsent_valid this w s c :
  localStorage w !! STORAGE_KEY = Some s →
  s ≠ EmptyString →
  JSON_parse s = Some c →
  valid_at this (now w) c →
  getConsent this w = (Ok (Some c), w).
Proof.
  intros H Hne Hp [Ht Hv]. rewrite (getConsent_parsed _ _ _ _ H Hne Hp).
  destruct (Z.gtb_spec (now w) (timestamp c + days (expiryDays this))); [lia|].
  rewrite Hv. by rewrite String.eqb_refl.
Qed.

Lemma getConsent_invalid this w s c :
  localStorage w !! STORAGE_KEY = Some s →
  s ≠ EmptyString →
  JSON_parse s = Some c →
  ¬ valid_at this (now w) c →
  getConsent this w = (Ok None, erased w).
Proof.
  intros H Hne Hp Hn. rewrite (getConsent_parsed _ _ _ _ H Hne Hp).
  destruct (Z.gtb_spec (now w) (timestamp c + days (expiryDays this))); [done|].
  destruct (String.eqb_spec (version c) STORAGE_VERSION); [|done].
  destruct Hn. split; [lia|done].
Qed.

(** [getConsent] never throws; it returns either a record that is stored,
    parses and is valid, leaving the world as it was, or nothing, leaving
    the world as it was or with the entry erased. *)
Lemma getConsent_cases this w :
  (∃ s c, localStorage w !! STORAGE_KEY = Some s ∧ JSON_parse s = Some c ∧
          valid_at this (now w) c ∧ getConsent this w = (Ok (Some c), w)) ∨
  getConsent this w = (Ok None, w) ∨
  getConsent this w = (Ok None, erased w).
Proof.
  destruct (localStorage w !! STORAGE_KEY) as [s|] eqn:H.
  - destruct (decide (s = EmptyString)) as [->|Hne].
    { right; left. by apply getConsent_empty. }
    destruct (JSON_parse s) as [c|] eqn:Hp.
    + destruct (decide (now w ≤ timestamp c + days (expiryDays this)
                        ∧ version c = STORAGE_VERSION)) as [Hv|Hv].
      * left. exists s, c. eauto using getConsent_valid.
      * right; right. eauto using getConsent_invalid.
    + right; left. eauto using getConsent_malformed.
  - right; left. by apply getConsent_absent.
Qed.

Lemma saveConsent_run this C R L w :
  saveConsent this C R L w =
    let consent := mkConsentState (now w) C STORAGE_VERSION R L in
    (Ok consent,
     if setItem_throws w
     then emit (EvSetItem STORAGE_KEY (JSON_stringify consent)) w
     else stored (JSON_stringify consent) w).
Proof.
  unfold saveConsent, bind, try_catch, Date_now, gets, localStorage_setItem, ret.
  cbn. by destruct (setItem_throws w).
Qed.

Lemma updateCategoryConsent_run this categoryId value w c :
  getConsent this w = (Ok (Some c), w) →
  updateCategoryConsent this categoryId value w =
    let consent :=
      set_timestamp (set_categories c (<[categoryId := value]> (categories c))) (now w) in
    if setItem_throws w
    then (Ok None, emit (EvSetItem STORAGE_KEY (JSON_stringify consent)) w)
    else (Ok (Some consent), stored (JSON_stringify consent) w).
Proof.
  intros H. unfold updateCategoryConsent, bind. rewrite H.
  unfold try_catch, Date_now, gets, localStorage_setItem, ret.
  cbn. by destruct (setItem_throws w).
Qed.

Lemma updateCategoryConsent_none this categoryId value w w' :
  getConsent this w = (Ok None, w') →
  updateCategoryConsent this categoryId value w = (Ok None, w').
Proof. intros H. unfold updateCategoryConsent, bind. by rewrite H. Qed.

Lemma read_at_times_malformed this s ts : ∀ w,
  localStorage w !! STORAGE_KEY = Some s →
  JSON_parse s = None →
  ∃ w', read_at_times this ts w = (replicate (length ts) (Ok None), w')
        ∧ localStorage w' = localStorage w ∧ trace w' = trace w.
Proof.
  induction ts as [|t ts IH]; intros w H Hp; cbn [read_at_times].
  - by exists w.
  - rewrite (getConsent_malformed this (set_now t w) s) by done.
    destruct (IH (set_now t w)) as (w' & -> & Hs & Ht); [done..|].
    by exists w'.
Qed.

(** C9. When the bytes stored under the consent key do not parse,
    [getConsent] returns nothing without throwing and leaves the world as
    it was: the bytes stay in place and no [removeItem] is issued. Reads
    at any later clock readings return nothing again, with the same bytes
    still stored. A record that parses but is expired or of another
    version is, by contrast, erased by the read that rejects it. *)
Theorem malformed_record_is_kept (this : ConsentStorage) (w : World) (s : string) :
  localStorage w !! STORAGE_KEY = Some s →
  JSON_parse s = None →
  getConsent this w = (Ok None, w)
  ∧ (∀ ts, ∃ w', read_at_times this ts w = (replicate (length ts) (Ok None), w')
                 ∧ localStorage w' !! STORAGE_KEY = Some s
                 ∧ trace w' = trace w)
  ∧ (∀ s' c, s' ≠ EmptyString → JSON_parse s' = Some c →
             ¬ (now w ≤ timestamp c + expiryDays this * 86400000
                ∧ version c = STORAGE_VERSION) →
             let w1 := set_localStorage (<[STORAGE_KEY := s']> (localStorage w)) w in
             result (getConsent this) w1 = Ok None
             ∧ localStorage (after (getConsent this) w1) !! STORAGE_KEY = None).
Proof.
  intros H Hp. split; [eauto using getConsent_malformed|]. split.
  - intros ts. destruct (read_at_times_malformed this s ts w H Hp) as (w' & E & Hs & Ht).
    exists w'. by rewrite E, Hs.
  - intros s' c Hne Hp' Hn w1. unfold result, after.
    rewrite (getConsent_invalid this w1 s' c); [| |done..].
    + split; [done|]. cbn. apply lookup_delete_eq.
    + cbn. apply lookup_insert_eq.
Qed.

(** C4, as the code has it. When [setItem] throws, neither writing
    operation throws. [saveConsent] returns the record it built, the
    stored entry untouched; [updateCategoryConsent] returns nothing, whether
    or not a valid record was stored: its [catch] discards the updated
    record. *)
Theorem storage_failure_is_caught (this : ConsentStorage) (w : World) :
  setItem_throws w = true →
  (∀ C R L,
     result (saveConsent this C R L) w = Ok (mkConsentState (now w) C STORAGE_VERSION R L)
     ∧ localStorage (after (saveConsent this C R L) w) = localStorage w)
  ∧ (∀ categoryId value,
       result (updateCategoryConsent this categoryId value) w = Ok None).
Proof.
  intros Ht. split.
  - intros C R L. unfold result, after. rewrite saveConsent_run. cbn. by rewrite Ht.
  - intros categoryId value. unfold result.
    destruct (getConsent_cases this w) as [(s & c & _ & _ & _ & E)|[E|E]].
    + rewrite (updateCategoryConsent_run _ _ _ _ _ E). cbn. by rewrite Ht.
    + by rewrite (updateCategoryConsent_none _ _ _ _ _ E).
    + by rewrite (updateCategoryConsent_none _ _ _ _ _ E).
Qed.

Section Runtime.

(** What the development assumes of the runtime's JSON functions: a record
    parses back from its serialisation, and the empty string is not JSON. *)
Hypothesis JSON_roundtrip : ∀ c, JSON_parse (JSON_stringify c) = Some c.
Hypothesis JSON_parse_empty : JSON_parse EmptyString = None.

Lemma JSON_stringify_nonempty c : JSON_stringify c ≠ EmptyString.
Proof.
  intros H. specialize (JSON_roundtrip c). rewrite H in JSON_roundtrip. congruence.
Qed.

Lemma getConsent_stored this c w :
  getConsent this (stored (JSON_stringify c) w) =
    if now w >? timestamp c + days (expiryDays this)
    then (Ok None, erased (stored (JSON_stringify c) w))
    else if negb (String.eqb (version c) STORAGE_VERSION)
    then (Ok None, erased (stored (JSON_stringify c) w))
    else (Ok (Some c), stored (JSON_stringify c) w).
Proof.
  rewrite (getConsent_parsed this (stored (JSON_stringify c) w) (JSON_stringify c) c);
    [done| |apply JSON_stringify_nonempty|apply JSON_roundtrip].
  cbn. apply lookup_insert_eq.
Qed.

Lemma forceRequired_id cats C : requiredTrue cats C → forceRequired cats C = C.
Proof.
  unfold forceRequired.
  induction cats as [|cat cats IH]; intros H; [done|]. cbn [foldr].
  rewrite IH by (intros c Hc; apply H; by right).
  destruct (required cat) eqn:Hr; [|done].
  apply insert_id, H; [by left|done].
Qed.

Lemma forceRequired_lookup cats C cat :
  cat ∈ cats → required cat = true → forceRequired cats C !! id cat = Some true.
Proof.
  unfold forceRequired.
  induction cats as [|cat' cats IH]; intros Hin Hr; [by apply elem_of_nil in Hin|].
  cbn [foldr]. apply elem_of_cons in Hin as [<-|Hin].
  - rewrite Hr. apply lookup_insert_eq.
  - destruct (required cat'); [|by apply IH].
    destruct (decide (id cat' = id cat)) as [->|Hne].
    + apply lookup_insert_eq.
    + rewrite lookup_insert_ne by done. by apply IH.
Qed.

Lemma forceRequired_fixed cats C : forceRequired cats C = C ↔ requiredTrue cats C.
Proof.
  split; [|apply forceRequired_id].
  intros H cat Hin Hr. rewrite <- H. by apply forceRequired_lookup.
Qed.

Lemma read_after_save this C R L w :
  setItem_throws w = false →
  getConsent this (after (saveConsent this C R L) w) =
    let consent := mkConsentState (now w) C STORAGE_VERSION R L in
    if now w >? now w + days (expiryDays this)
    then (Ok None, erased (stored (JSON_stringify consent) w))
    else (Ok (Some consent), stored (JSON_stringify consent) w).
Proof.
  intros Ht. unfold after. rewrite saveConsent_run. cbn zeta. cbn [snd].
  rewrite Ht, getConsent_stored. cbn [timestamp version].
  destruct (_ >? _); [done|]. by rewrite String.eqb_refl.
Qed.

(** C1, as the code has it. When [setItem] goes through and the expiry
    window is not negative, [getConsent] right after
    [saveConsent(C, R)] returns a record whose categories are [C] as
    passed and whose reason is [R]. The store forces nothing: the categories
    are [C] with the required ones forced to [true] exactly when [C]
    already grants them. *)
Theorem read_after_write_returns_written (this : ConsentStorage)
    (C : gmap string bool) (R : Reason) (L : option LocationData) (w : World) :
  setItem_throws w = false →
  0 ≤ expiryDays this →
  ∃ rec, result (getConsent this) (after (saveConsent this C R L) w) = Ok (Some rec)
         ∧ categories rec = C
         ∧ reason rec = R
         ∧ ∀ cats, categories rec = forceRequired cats C ↔ requiredTrue cats C.
Proof.
  intros Ht Hd. unfold result. rewrite read_after_save by done. cbn zeta.
  destruct (Z.gtb_spec (now w) (now w + days (expiryDays this))) as [Hlt|_].
  { unfold days in Hlt. lia. }
  eexists. split; [done|]. cbn. split_and!; [done..|].
  intros cats. rewrite <- forceRequired_fixed. split; congruence.
Qed.

(** C7. With [expiryDays = d], a record written at time [t] is returned by
    a read at every time up to and including [t + d*86400000], the stored
    entry untouched; from [t + d*86400000 + 1] on the read returns nothing
    and erases the entry. Reading does not refresh the record: a read
    inside the window followed by one after it finds the record expired. *)
Theorem expiry_is_fixed_from_creation (this : ConsentStorage)
    (C : gmap string bool) (R : Reason) (L : option LocationData) (w : World) :
  setItem_throws w = false →
  let d := expiryDays this in
  let t := now w in
  let rec := mkConsentState t C STORAGE_VERSION R L in
  let w1 := after (saveConsent this C R L) w in
  (∀ t', t' ≤ t + d * 86400000 →
         getConsent this (set_now t' w1) = (Ok (Some rec), set_now t' w1))
  ∧ (∀ t', t + d * 86400000 + 1 ≤ t' →
           result (getConsent this) (set_now t' w1) = Ok None
           ∧ localStorage (after (getConsent this) (set_now t' w1)) !! STORAGE_KEY = None)
  ∧ (∀ t1 t2, t1 ≤ t + d * 86400000 → t + d * 86400000 + 1 ≤ t2 →
              result (getConsent this)
                     (set_now t2 (after (getConsent this) (set_now t1 w1))) = Ok None).
Proof.
  intros Ht d t rec w1.
  assert (Hw1 : w1 = stored (JSON_stringify rec) w).
  { unfold w1, after. rewrite saveConsent_run. cbn. by rewrite Ht. }
  assert (Hin : ∀ t', t' ≤ t + d * 86400000 →
            getConsent this (set_now t' w1) = (Ok (Some rec), set_now t' w1)).
  { intros t' Hle. rewrite Hw1.
    apply (getConsent_valid this _ (JSON_stringify rec) rec);
      [cbn; apply lookup_insert_eq|apply JSON_stringify_nonempty|apply JSON_roundtrip|].
    split; [|done]. cbn. unfold days. fold d t. lia. }
  assert (Hout : ∀ t', t + d * 86400000 + 1 ≤ t' →
            getConsent this (set_now t' w1) = (Ok None, erased (set_now t' w1))).
  { intros t' Hlt. rewrite Hw1.
    apply (getConsent_invalid this _ (JSON_stringify rec) rec);
      [cbn; apply lookup_insert_eq|apply JSON_stringify_nonempty|apply JSON_roundtrip|].
    intros [Hle _]. cbn in Hle. unfold days in Hle. fold d t in Hle. lia. }
  split_and!.
  - exact Hin.
  - intros t' Hlt. unfold result, after. rewrite Hout by done.
    split; [done|]. cbn. apply lookup_delete_eq.
  - intros t1 t2 H1 H2. unfold after at 1. rewrite Hin by done. cbn [snd].
    unfold result.
    change (set_now t2 (set_now t1 w1)) with (set_now t2 w1).
    by rewrite Hout.
Qed.

Lemma store_inv_same cats w w' :
  localStorage w' = localStorage w → store_inv cats w → store_inv cats w'.
Proof. unfold store_inv. intros ->. done. Qed.

Lemma store_inv_erased cats w : store_inv cats (erased w).
Proof. intros s c H. cbn in H. by rewrite lookup_delete_eq in H. Qed.

Lemma store_inv_stored cats c w :
  requiredTrue cats (categories c) → store_inv cats (stored (JSON_stringify c) w).
Proof.
  intros Hc s c' H Hp. cbn in H. rewrite lookup_insert_eq in H.
  injection H as <-. rewrite JSON_roundtrip in Hp. by injection Hp as <-.
Qed.

Lemma requiredTrue_insert cats C categoryId value :
  requiredTrue cats C →
  (value = false → ∀ cat, cat ∈ cats → required cat = true → id cat ≠ categoryId) →
  requiredTrue cats (<[categoryId := value]> C).
Proof.
  intros HC Hv cat Hin Hr.
  destruct (decide (id cat = categoryId)) as [<-|Hne].
  - rewrite lookup_insert_eq. destruct value; [done|].
    by destruct (Hv eq_refl cat Hin Hr).
  - rewrite lookup_insert_ne by done. by apply HC.
Qed.

Lemma run_op_inv cats this op w :
  store_inv cats w →
  respects cats op →
  store_inv cats (run_op this op w).2
  ∧ ∀ c, (run_op this op w).1 = Some c → requiredTrue cats (categories c).
Proof.
  intros Hinv Hop. destruct op as [C R L|categoryId value| | |t throws]; cbn [run_op].
  - split; [|done]. cbn [snd]. unfold after. rewrite saveConsent_run. cbn.
    destruct (setItem_throws w).
    + by apply (store_inv_same cats w).
    + by apply store_inv_stored.
  - split; [|done]. cbn [snd]. unfold after.
    destruct (getConsent_cases this w) as [(s & c & Hs & Hp & _ & E)|[E|E]].
    + rewrite (updateCategoryConsent_run _ _ _ _ _ E). cbn zeta.
      destruct (setItem_throws w); cbn [snd].
      * by apply (store_inv_same cats w).
      * apply store_inv_stored. cbn. apply requiredTrue_insert; eauto.
    + by rewrite (updateCategoryConsent_none _ _ _ _ _ E).
    + rewrite (updateCategoryConsent_none _ _ _ _ _ E). apply store_inv_erased.
  - split; [|done]. apply store_inv_erased.
  - destruct (getConsent_cases this w) as [(s & c & Hs & Hp & _ & E)|[E|E]];
      rewrite E; cbn [fst snd].
    + split; [done|]. intros c' [= <-]. eauto.
    + done.
    + split; [apply store_inv_erased|done].
  - split; [|done]. by apply (store_inv_same cats w).
Qed.

Lemma reads_inv cats this ops : ∀ w,
  store_inv cats w →
  Forall (respects cats) ops →
  ∀ rec, rec ∈ reads this ops w → requiredTrue cats (categories rec).
Proof.
  induction ops as [|op ops IH]; intros w Hinv Hops rec Hin; cbn [reads] in Hin.
  - by apply elem_of_nil in Hin.
  - apply Forall_cons in Hops as [Hop Hops].
    destruct (run_op_inv cats this op w Hinv Hop) as [Hinv' Hr].
    destruct (run_op this op w) as [r w'] eqn:E. cbn [fst snd] in *.
    apply elem_of_app in Hin as [Hin|Hin]; [|by eapply IH].
    destruct r as [c|]; cbn in Hin.
    + apply list_elem_of_singleton in Hin as ->. by apply Hr.
    + by apply elem_of_nil in Hin.
Qed.

(** C2, as the code has it. The store knows nothing of required
    categories and stores what it is given. Starting with no consent entry
    stored, along every sequence of writes, category updates, clears and
    reads, with the clock and the quota moving freely in between, in which
    each write is passed a mapping that grants the required categories and
    no update sets a required category to [false], every record a read
    returns grants every required category. *)
Theorem reads_grant_required_when_callers_do (cats : list CookieCategory)
    (this : ConsentStorage) (ops : list StoreOp) (w : World) :
  localStorage w !! STORAGE_KEY = None →
  Forall (respects cats) ops →
  reads_grant_required cats this ops w.
Proof.
  intros Hw Hops rec. apply (reads_inv cats this ops w); [|done].
  intros s c H. by rewrite Hw in H.
Qed.

End Runtime.

(** ** Properties of the resolver *)

Lemma append_cons (a : ascii) (s q : string) :
  String a s +:+ q = String a (s +:+ q).
Proof. reflexivity. Qed.

Lemma prefix_spec (t s : string) :
  String.prefix t s = true ↔ ∃ q, s = t +:+ q.
Proof.
  revert s. induction t as [|a t IH]; intros s.
  - split; [intros _; by exists s|intros _; by destruct s].
  - destruct s as [|b s]; cbn [String.prefix]; [split; [done|by intros [q ?]]|].
    destruct (ascii_dec a b) as [->|Hne].
    + rewrite IH. split; intros [q Hq]; exists q; rewrite append_cons in *; congruence.
    + split; [done|]. intros [q Hq]. rewrite append_cons in Hq. congruence.
Qed.

(** [includes] finds the search string anywhere in the string. *)
Lemma includes_spec (s t : string) :
  includes s t = true ↔ ∃ p q, s = p +:+ t +:+ q.
Proof.
  induction s as [|a s IH]; cbn [includes].
  - destruct (String.prefix t EmptyString) eqn:Hp.
    + split; [intros _|done]. apply prefix_spec in Hp as [q Hq]. by exists EmptyString, q.
    + split; [done|]. intros (p & q & H).
      destruct p; [|done].
      assert (String.prefix t EmptyString = true) by (apply prefix_spec; eauto).
      congruence.
  - destruct (String.prefix t (String a s)) eqn:Hp.
    + split; [intros _|done]. apply prefix_spec in Hp as [q Hq]. by exists EmptyString, q.
    + rewrite IH. split.
      * intros (p & q & ->). by exists (String a p), q.
      * intros (p & q & H). destruct p as [|b p].
        -- assert (String.prefix t (String a s) = true)
             by (apply prefix_spec; eauto). congruence.
        -- rewrite append_cons in H. injection H as _ ->. eauto.
Qed.

Lemma checkLocation_lookup_run this w :
  checkLocation_lookup (this, w) =
    let w1 := set_now (now w + latency w) (emit (EvFetch (endpoint this)) w) in
    match network w (endpoint this) with
    | None => (Ok failsafe_result, (this, w1))
    | Some response =>
        if ok response then
          match body response with
          | Some data =>
              let result := if includes (endpoint this) "ipapi.co"
                            then ipapi_result data else custom_result data in
              (Ok result, (mkGeolocationService (endpoint this) (Some result) (now w1), w1))
          | None => (Ok failsafe_result, (this, w1))
          end
        else (Ok failsafe_result, (this, w1))
    end.
Proof.
  unfold checkLocation_lookup, try_catch, bind, gets, liftW, fetch. cbn.
  destruct (network w (endpoint this)) as [response|]; [|done].
  destruct (ok response); [|done]. cbn.
  unfold Response_json. by destruct (body response).
Qed.

Lemma checkLocation_miss this w :
  cache_miss this w → checkLocation (this, w) = checkLocation_lookup (this, w).
Proof.
  intros Hm. unfold checkLocation, bind, gets, liftW, Date_now. cbn.
  destruct (cache this) as [cached|] eqn:Hc; [|done]. cbn.
  destruct Hm as [?|Hm]; [congruence|].
  by destruct (Z.ltb_spec (now w - cacheTimestamp this) CACHE_DURATION); [lia|].
Qed.

Lemma checkLocation_hit this w cached :
  cache this = Some cached →
  now w - cacheTimestamp this < CACHE_DURATION →
  checkLocation (this, w) = (Ok cached, (this, w)).
Proof.
  intros Hc Ht. unfold checkLocation, bind, gets, liftW, Date_now. cbn.
  rewrite Hc. cbn.
  by destruct (Z.ltb_spec (now w - cacheTimestamp this) CACHE_DURATION); [|lia].
Qed.

(** A lookup is made exactly when the cache does not answer. *)
Lemma checkLocation_miss_trace this w :
  cache_miss this w →
  trace (after checkLocation (this, w)).2 = trace w ++ [EvFetch (endpoint this)].
Proof.
  intros Hm. unfold after. rewrite checkLocation_miss, checkLocation_lookup_run by done.
  cbn zeta. destruct (network w (endpoint this)) as [response|]; [|done].
  destruct (ok response); [|done]. by destruct (body response).
Qed.

(** C5. When the cache does not answer and the lookup is rejected or comes
    back with a non-success status, [checkLocation] does not throw and
    returns [inEU = true] with no country and no region; the service keeps
    its cache fields as they were, so the call that follows, whatever the
    network then does, makes a lookup of its own. *)
Theorem lookup_failure_is_failsafe_and_uncached (this : GeolocationService) (w : World) :
  cache_miss this w →
  (network w (endpoint this) = None
   ∨ ∃ response, network w (endpoint this) = Some response ∧ ok response = false) →
  0 ≤ latency w →
  let w1 := set_now (now w + latency w) (emit (EvFetch (endpoint this)) w) in
  checkLocation (this, w) = (Ok (mkGeolocationResponse true None None), (this, w1))
  ∧ ∀ n, trace (after checkLocation (this, set_network n w1)).2
         = trace w ++ [EvFetch (endpoint this); EvFetch (endpoint this)].
Proof.
  intros Hm Hf Hl w1. split.
  - rewrite checkLocation_miss, checkLocation_lookup_run by done. cbn zeta.
    destruct Hf as [->|(response & -> & Hok)]; [done|]. by rewrite Hok.
  - intros n. rewrite checkLocation_miss_trace.
    + cbn. by rewrite <- app_assoc.
    + destruct Hm as [Hm|Hm]; [by left|right]. cbn. lia.
Qed.

(** C10. The adapter is chosen by whether the endpoint URL contains
    [ipapi.co] anywhere. On a lookup that succeeds with body [data], an
    endpoint containing it is read through the country-code set, any other
    through [inEU] / [in_eu]. *)
Theorem provider_dispatch_is_by_substring (this : GeolocationService) (w : World)
    (response : Response) (data : GeoData) :
  cache_miss this w →
  network w (endpoint this) = Some response →
  ok response = true →
  body response = Some data →
  ((∃ p q, endpoint this = p +:+ "ipapi.co" +:+ q) →
     result checkLocation (this, w) =
       Ok (mkGeolocationResponse (Array_includes euCountries (country_code data))
                                 (country_name data) (data_region data)))
  ∧ (¬ (∃ p q, endpoint this = p +:+ "ipapi.co" +:+ q) →
     result checkLocation (this, w) =
       Ok (mkGeolocationResponse (or_false (data_inEU data) (in_eu data))
                                 (data_country data) (data_region data))).
Proof.
  intros Hm Hn Hok Hb. unfold result.
  rewrite checkLocation_miss, checkLocation_lookup_run by done. cbn zeta.
  rewrite Hn, Hok, Hb. split; intros H.
  - apply includes_spec in H. by rewrite H.
  - destruct (includes (endpoint this) "ipapi.co") eqn:Hi; [|done].
    by apply includes_spec in Hi.
Qed.

(** ** Properties of the start-up decision *)

Lemma hasConsent_run this w :
  hasConsent this w =
    ((λ r, match r with
           | Ok consent => Ok (bool_decide (consent ≠ None))
           | Throw e => Throw e
           end) (getConsent this w).1, (getConsent this w).2).
Proof.
  unfold hasConsent, bind, ret. by destruct (getConsent this w) as [[c|e] w'].
Qed.

(** The existence check answers [true] exactly on a stored entry that
    parses to a valid record, which a second read returns again. *)
Lemma hasConsent_true this w :
  result (hasConsent this) w = Ok true →
  ∃ s c, localStorage w !! STORAGE_KEY = Some s ∧ JSON_parse s = Some c
         ∧ valid_at this (now w) c
         ∧ hasConsent this w = (Ok true, w)
         ∧ getConsent this w = (Ok (Some c), w).
Proof.
  unfold result. rewrite hasConsent_run. cbn [fst].
  destruct (getConsent_cases this w) as [(s & c & Hs & Hp & Hv & E)|[E|E]];
    rewrite E; cbn; [|done..].
  intros _. by exists s, c.
Qed.

Lemma hasConsent_false this w :
  result (hasConsent this) w = Ok false →
  hasConsent this w = (Ok false, after (hasConsent this) w).
Proof.
  unfold result, after. by destruct (hasConsent this w) as [r w']; cbn; intros ->.
Qed.

(** C3. When [forceShow] is off and the existence check finds a valid
    record, [init] returns having done one thing only: it hands the hook
    [onAccept], if supplied, the record parsed from the stored entry. The
    trace gains no lookup and no storage call, the stored entry and the
    resolver's cache are as they were, and nothing is rendered. *)
Theorem existing_consent_short_circuits (this : CookieDialog.t) (w : World) :
  let config := CookieDialog.config this in
  let storage := CookieDialog.storage this in
  Config.forceShow config = false →
  result (hasConsent storage) w = Ok true →
  ∃ s c, localStorage w !! STORAGE_KEY = Some s
         ∧ JSON_parse s = Some c
         ∧ now w ≤ timestamp c + expiryDays storage * 86400000
         ∧ version c = STORAGE_VERSION
         ∧ result (getConsent storage) w = Ok (Some c)
         ∧ init (this, w) =
             (Ok tt, (this, if Config.onAccept config then emit (EvOnAccept c) w else w)).
Proof.
  intros config storage Hf Hh.
  destruct (hasConsent_true storage w Hh) as (s & c & Hs & Hp & [Ht Hv] & Eh & Eg).
  exists s, c. split_and!; [done..| |].
  - unfold result. by rewrite Eg.
  - unfold init, bind, gets, liftW. cbn. fold config storage.
    rewrite Hf. cbn. rewrite Eh, Eg. unfold invoke.
    by destruct (Config.onAccept config).
Qed.

Lemma foldl_insert_lookup (f : CookieCategory → bool) cats : ∀ (acc : gmap string bool) k,
  k ∉ id <$> cats →
  foldl (λ consent cat, <[id cat := f cat]> consent) acc cats !! k = acc !! k.
Proof.
  induction cats as [|cat cats IH]; intros acc k Hk; [done|]. cbn [foldl].
  rewrite fmap_cons, not_elem_of_cons in Hk. destruct Hk as [Hne Hk].
  rewrite IH by done. by rewrite lookup_insert_ne.
Qed.

Lemma foldl_insert_true cats : ∀ (acc : gmap string bool) k,
  k ∈ id <$> cats →
  foldl (λ consent cat, <[id cat := true]> consent) acc cats !! k = Some true.
Proof.
  induction cats as [|cat cats IH]; intros acc k Hk; [by apply elem_of_nil in Hk|].
  cbn [foldl]. destruct (decide (k ∈ id <$> cats)) as [Hin|Hnin]; [by apply IH|].
  rewrite (foldl_insert_lookup (λ _, true)) by done.
  rewrite fmap_cons, elem_of_cons in Hk. destruct Hk as [->|?]; [|done].
  apply lookup_insert_eq.
Qed.

(** Accepting everything grants exactly the declared categories. *)
Lemma forEach_category_true cats k :
  forEach_category (λ _, true) cats !! k =
    if decide (k ∈ id <$> cats) then Some true else None.
Proof.
  unfold forEach_category. case_decide.
  - by apply foldl_insert_true.
  - by rewrite (foldl_insert_lookup (λ _, true)).
Qed.

(** [checkLocation] never throws. *)
Lemma checkLocation_ok g w :
  ∃ loc g1 w1, checkLocation (g, w) = (Ok loc, (g1, w1)).
Proof.
  destruct (cache g) as [cached|] eqn:Hc.
  - destruct (decide (now w - cacheTimestamp g < CACHE_DURATION)) as [Hlt|Hge].
    + rewrite (checkLocation_hit g w cached) by done. eauto.
    + rewrite checkLocation_miss, checkLocation_lookup_run by (right; lia). cbn zeta.
      destruct (network w (endpoint g)) as [response|]; [|eauto].
      destruct (ok response); [|eauto]. destruct (body response); eauto.
  - rewrite checkLocation_miss, checkLocation_lookup_run by (by left). cbn zeta.
    destruct (network w (endpoint g)) as [response|]; [|eauto].
    destruct (ok response); [|eauto]. destruct (body response); eauto.
Qed.

(** The branch is skipped when geolocation is off. *)
Lemma init_location_disabled this w :
  Config.enableLocation (CookieDialog.config this) = false
  ∨ CookieDialog.geolocation this = None →
  init_location (this, w) = (Ok false, (this, w)).
Proof.
  unfold init_location, bind, gets. cbn.
  intros [->| ->]; [done|]. by destruct (Config.enableLocation _).
Qed.

Lemma init_location_enabled this w g loc g1 w1 :
  let config := CookieDialog.config this in
  Config.enableLocation config = true →
  CookieDialog.geolocation this = Some g →
  checkLocation (g, w) = (Ok loc, (g1, w1)) →
  init_location (this, w) =
    if negb (inEU loc) && negb (Config.forceShow config) then
      let consent := exempt_record this loc (now w1) in
      let w2 := after (saveConsent (CookieDialog.storage this) (categories consent)
                         location_not_required (locationData consent)) w1 in
      (Ok true,
       (CookieDialog.set_geolocation (Some g1) this,
        mkWorld (now w2) (localStorage w2) (setItem_throws w2) (network w2) (latency w2)
                (trace w2 ++ exempt_hooks config loc consent)))
    else (Ok false, (CookieDialog.set_geolocation (Some g1) this, w1)).
Proof.
  intros config He Hg Hc. unfold init_location, bind, gets, try_catch. cbn.
  fold config. rewrite He, Hg. unfold on_geolocation. rewrite Hc.
  destruct (negb (inEU loc) && negb (Config.forceShow config)); [|done].
  unfold liftW, after. rewrite saveConsent_run. cbn.
  unfold invoke, exempt_hooks, exempt_record, liftW, modify, emit.
  destruct (Config.onLocationNotRequired config), (Config.onAccept config),
    (setItem_throws w1); cbn; rewrite <- ?app_assoc, ?app_nil_r; done.
Qed.

Lemma getCategoryConsent_ok this categoryId w :
  ∃ b w', getCategoryConsent this categoryId w = (Ok b, w').
Proof.
  unfold getCategoryConsent, bind.
  destruct (getConsent_cases this w) as [(s & c & _ & _ & _ & E)|[E|E]];
    rewrite E; cbn; eauto.
Qed.

Lemma renderCategories_ok this cats : ∀ w,
  ∃ boxes w', renderCategories this cats w = (Ok boxes, w').
Proof.
  induction cats as [|cat cats IH]; intros w; cbn [renderCategories].
  - unfold ret. eauto.
  - unfold bind. destruct (getCategoryConsent_ok this (id cat) w) as (b & w1 & ->).
    destruct (IH w1) as (boxes & w2 & ->). unfold ret. eauto.
Qed.

(** [show] does not throw and leaves the prompt on screen. *)
Lemma show_shows this w :
  ∃ this' w', show (this, w) = (Ok tt, (this', w')) ∧ prompt_shown this'.
Proof.
  unfold show, bind, gets. cbn.
  destruct (CookieDialog.dialogElement this) as [el|] eqn:Hel.
  - unfold modify. cbn.
    destruct (CookieDialog.overlayElement this),
      (Config.position (CookieDialog.config this)); cbn;
      (do 2 eexists; split; [done|]); by eexists.
  - unfold render, bind, gets, liftW, modify. cbn.
    destruct (Config.position (CookieDialog.config this)); cbn.
    all: match goal with
         | |- context [renderCategories ?st ?cats ?w0] =>
             destruct (renderCategories_ok st cats w0) as (boxes & w1 & ->)
         end.
    all: cbn; (do 2 eexists; split; [done|]); by eexists.
Qed.

Lemma init_forced this w :
  Config.forceShow (CookieDialog.config this) = true →
  init (this, w) =
    match init_location (this, w) with
    | (Ok true, s) => (Ok tt, s)
    | (Ok false, s) =>
        if Config.autoShow (CookieDialog.config this) then show s else (Ok tt, s)
    | (Throw e, s) => (Throw e, s)
    end.
Proof.
  intros Hf. unfold init, bind, gets. cbn [fst]. rewrite Hf. cbn [negb ret].
  destruct (init_location (this, w)) as [[[]|e] s]; [done| |done].
  by destruct (Config.autoShow _).
Qed.

Lemma init_absent this w :
  Config.forceShow (CookieDialog.config this) = false →
  result (hasConsent (CookieDialog.storage this)) w = Ok false →
  init (this, w) =
    match init_location (this, after (hasConsent (CookieDialog.storage this)) w) with
    | (Ok true, s) => (Ok tt, s)
    | (Ok false, s) =>
        if Config.autoShow (CookieDialog.config this) then show s else (Ok tt, s)
    | (Throw e, s) => (Throw e, s)
    end.
Proof.
  intros Hf Hh. unfold init, bind, gets, liftW. cbn [fst]. rewrite Hf. cbn [negb].
  rewrite (hasConsent_false _ _ Hh).
  destruct (init_location _) as [[[]|e] s]; [done| |done].
  by destruct (Config.autoShow _).
Qed.

(** C6. With geolocation enabled, [forceShow] off, no valid record stored
    and the resolver answering that consent is not required, [init] builds
    a record granting every declared category and nothing else, with reason
    [location_not_required] and the lookup's country and region, its
    [inEU] flag and the detection method attached; it issues one [setItem]
    of that record, which is stored unless [setItem] throws, then calls
    [onLocationNotRequired] and then [onAccept] with the record, each if
    supplied, and returns without rendering anything. *)
Theorem region_exempt_is_auto_accepted (this : CookieDialog.t) (w : World)
    (g : GeolocationService) (loc : GeolocationResponse)
    (g1 : GeolocationService) (w1 : World) :
  let config := CookieDialog.config this in
  let storage := CookieDialog.storage this in
  Config.enableLocation config = true →
  Config.forceShow config = false →
  CookieDialog.geolocation this = Some g →
  result (hasConsent storage) w = Ok false →
  checkLocation (g, after (hasConsent storage) w) = (Ok loc, (g1, w1)) →
  inEU loc = false →
  ∃ consent w2,
    init (this, w) = (Ok tt, (CookieDialog.set_geolocation (Some g1) this, w2))
    ∧ timestamp consent = now w1
    ∧ (∀ k, categories consent !! k =
            if decide (k ∈ id <$> CookieDialog.categories this) then Some true else None)
    ∧ version consent = STORAGE_VERSION
    ∧ reason_wire (reason consent) = "location_not_required"
    ∧ locationData consent =
        Some (mkLocationData (country loc) (region loc) false "ip_geolocation")
    ∧ trace w2 =
        trace w1
        ++ [EvSetItem STORAGE_KEY (JSON_stringify consent)]
        ++ (if Config.onLocationNotRequired config
            then [EvOnLocationNotRequired
                    (mkGeolocationResponse false (country loc) (region loc))]
            else [])
        ++ (if Config.onAccept config then [EvOnAccept consent] else [])
    ∧ (setItem_throws w1 = false →
       localStorage w2 !! STORAGE_KEY = Some (JSON_stringify consent))
    ∧ CookieDialog.dialogElement (CookieDialog.set_geolocation (Some g1) this)
      = CookieDialog.dialogElement this.
Proof.
  intros config storage He Hf Hg Hh Hc Hloc. subst config storage.
  exists (exempt_record this loc (now w1)). eexists.
  rewrite (init_absent this w Hf Hh).
  rewrite (init_location_enabled _ _ g loc g1 w1 He Hg Hc).
  rewrite Hloc, Hf. cbn [negb andb].
  split; [reflexivity|]. split_and!; try done.
  - intros k. apply forEach_category_true.
  - cbn. by rewrite Hloc.
  - cbn [trace]. unfold after. rewrite saveConsent_run. cbn zeta. cbn [snd].
    unfold exempt_hooks. rewrite Hloc.
    destruct (setItem_throws w1); cbn; by rewrite <- app_assoc.
  - intros Ht. cbn [localStorage]. unfold after. rewrite saveConsent_run. cbn zeta.
    cbn [snd]. rewrite Ht. cbn. apply lookup_insert_eq.
Qed.

Lemma init_location_falls_through this w :
  let config := CookieDialog.config this in
  (Config.enableLocation config = false
   ∨ CookieDialog.geolocation this = None
   ∨ Config.forceShow config = true
   ∨ ∃ g loc, CookieDialog.geolocation this = Some g
              ∧ result checkLocation (g, w) = Ok loc
              ∧ inEU loc = true) →
  ∃ this' w', init_location (this, w) = (Ok false, (this', w'))
              ∧ CookieDialog.dialogElement this' = CookieDialog.dialogElement this.
Proof.
  intros config H.
  destruct (Config.enableLocation config) eqn:He;
    [|exists this, w; by rewrite init_location_disabled by (by left)].
  destruct (CookieDialog.geolocation this) as [g|] eqn:Hg;
    [|exists this, w; by rewrite init_location_disabled by (by right)].
  destruct (checkLocation_ok g w) as (loc & g1 & w1 & Hc).
  exists (CookieDialog.set_geolocation (Some g1) this), w1.
  rewrite (init_location_enabled _ _ g loc g1 w1 He Hg Hc). subst config.
  destruct H as [?|[?|[Hf|(g' & loc' & Hg' & Hr & Hin)]]]; [done..| |].
  - rewrite Hf, andb_false_r. done.
  - injection Hg' as <-. unfold result in Hr. rewrite Hc in Hr.
    injection Hr as <-. rewrite Hin. done.
Qed.

(** C8, as the code has it. When [init] comes to its last step, with no
    valid record stored, it shows the prompt if [autoShow] is on, which it
    is unless the caller turned it off; with [autoShow] off it leaves the
    dialog as it was. *)
Theorem prompt_is_shown_under_autoShow (this : CookieDialog.t) (w : World) :
  reaches_prompt_step this w →
  (Config.autoShow (CookieDialog.config this) = true →
   prompt_shown (after init (this, w)).1)
  ∧ (Config.autoShow (CookieDialog.config this) = false →
     CookieDialog.dialogElement (after init (this, w)).1
     = CookieDialog.dialogElement this).
Proof.
  intros [Hfirst Hsecond]. unfold after.
  assert (∃ w0, before_location this w = w0 ∧
            init (this, w) =
              match init_location (this, w0) with
              | (Ok true, s) => (Ok tt, s)
              | (Ok false, s) =>
                  if Config.autoShow (CookieDialog.config this) then show s
                  else (Ok tt, s)
              | (Throw e, s) => (Throw e, s)
              end) as (w0 & Hw0 & ->).
  { unfold before_location.
    destruct (Config.forceShow (CookieDialog.config this)) eqn:Hf.
    - exists w. split; [done|]. by apply init_forced.
    - eexists. split; [done|]. by apply init_absent. }
  rewrite Hw0 in Hsecond.
  destruct (init_location_falls_through this w0 Hsecond) as (this' & w' & -> & Hd).
  destruct (Config.autoShow (CookieDialog.config this)).
  - destruct (show_shows this' w') as (this'' & w'' & -> & Hs). by cbn.
  - cbn. by rewrite Hd.
Qed.

(** ** Further properties of the store *)

Lemma clearConsent_run this w : clearConsent this w = (Ok tt, erased w).
Proof. reflexivity. Qed.

Lemma getConsent_erased this w : getConsent this (erased w) = (Ok None, erased w).
Proof. apply getConsent_absent. cbn. apply lookup_delete_eq. Qed.

(** Whatever a read does, reading again returns nothing new: a read that
    returned nothing is followed by reads that return nothing. *)
Lemma getConsent_none_again this w w' :
  getConsent this w = (Ok None, w') → getConsent this w' = (Ok None, w').
Proof.
  intros E. destruct (getConsent_cases this w) as [(s & c & _ & _ & _ & E')|[E'|E']];
    rewrite E' in E.
  - discriminate E.
  - by injection E as <-.
  - injection E as <-. apply getConsent_erased.
Qed.

Lemma getConsent_returns this w :
  ∃ r, result (getConsent this) w = Ok r.
Proof.
  unfold result.
  destruct (getConsent_cases this w) as [(s & c & _ & _ & _ & E)|[E|E]]; rewrite E; eauto.
Qed.

Lemma same_outside_consent_refl w : same_outside_consent w w.
Proof. by repeat split. Qed.

Lemma same_outside_consent_erased w : same_outside_consent w (erased w).
Proof.
  repeat split; try done. intros key Hk. cbn. by rewrite lookup_delete_ne.
Qed.

Lemma same_outside_consent_stored value w : same_outside_consent w (stored value w).
Proof.
  repeat split; try done. intros key Hk. cbn. by rewrite lookup_insert_ne.
Qed.

Lemma same_outside_consent_emit e w : same_outside_consent w (emit e w).
Proof. by repeat split. Qed.

Lemma getConsent_frame this w : same_outside_consent w (after (getConsent this) w).
Proof.
  unfold after.
  destruct (getConsent_cases this w) as [(s & c & _ & _ & _ & E)|[E|E]]; rewrite E; cbn.
  - apply same_outside_consent_refl.
  - apply same_outside_consent_refl.
  - apply same_outside_consent_erased.
Qed.

(** X2. The store touches nothing but its own entry: whatever operation
    runs, every other key of the storage keeps its value, and the clock,
    the quota and the network are as they were. *)
Theorem store_operations_touch_only_the_consent_key (this : ConsentStorage) (w : World) :
  same_outside_consent w (after (getConsent this) w)
  ∧ (∀ C R L, same_outside_consent w (after (saveConsent this C R L) w))
  ∧ same_outside_consent w (after (clearConsent this) w)
  ∧ same_outside_consent w (after (hasConsent this) w)
  ∧ (∀ categoryId, same_outside_consent w (after (getCategoryConsent this categoryId) w))
  ∧ (∀ categoryId value,
       same_outside_consent w (after (updateCategoryConsent this categoryId value) w)).
Proof.
  split_and!.
  - apply getConsent_frame.
  - intros C R L. unfold after. rewrite saveConsent_run. cbn zeta. cbn [snd].
    destruct (setItem_throws w);
      [apply same_outside_consent_emit|apply same_outside_consent_stored].
  - apply same_outside_consent_erased.
  - unfold after. rewrite hasConsent_run. cbn [snd]. apply getConsent_frame.
  - intros categoryId. pose proof (getConsent_frame this w) as H. unfold after in *.
    unfold getCategoryConsent, bind.
    destruct (getConsent this w) as [[[c|]|e] w']; exact H.
  - intros categoryId value. unfold after.
    destruct (getConsent_cases this w) as [(s & c & _ & _ & _ & E)|[E|E]].
    + rewrite (updateCategoryConsent_run _ _ _ _ _ E). cbn zeta.
      destruct (setItem_throws w); cbn [snd];
        [apply same_outside_consent_emit|apply same_outside_consent_stored].
    + rewrite (updateCategoryConsent_none _ _ _ _ _ E). apply same_outside_consent_refl.
    + rewrite (updateCategoryConsent_none _ _ _ _ _ E). apply same_outside_consent_erased.
Qed.

(** X3. [clearConsent] is idempotent and final: after it no consent exists
    and no category is granted, whatever was stored, and a second call
    leaves the storage as the first did. *)
Theorem clear_removes_consent (this : ConsentStorage) (w : World) :
  let w1 := after (clearConsent this) w in
  localStorage w1 !! STORAGE_KEY = None
  ∧ result (getConsent this) w1 = Ok None
  ∧ result (hasConsent this) w1 = Ok false
  ∧ (∀ categoryId, result (getCategoryConsent this categoryId) w1 = Ok false)
  ∧ localStorage (after (clearConsent this) w1) = localStorage w1.
Proof.
  intros w1. change w1 with (erased w). unfold result. split_and!.
  - cbn. apply lookup_delete_eq.
  - by rewrite getConsent_erased.
  - by rewrite hasConsent_run, getConsent_erased.
  - intros categoryId. unfold getCategoryConsent, bind. by rewrite getConsent_erased.
  - cbn. apply delete_delete_eq.
Qed.

(** What a read returns, from what is stored. *)
Lemma getConsent_some_iff this w c :
  result (getConsent this) w = Ok (Some c) ↔
  ∃ s, localStorage w !! STORAGE_KEY = Some s ∧ s ≠ EmptyString
       ∧ JSON_parse s = Some c ∧ valid_at this (now w) c.
Proof.
  unfold result. split.
  - destruct (localStorage w !! STORAGE_KEY) as [s|] eqn:Hs;
      [|by rewrite getConsent_absent].
    destruct (decide (s = EmptyString)) as [->|Hne]; [by rewrite getConsent_empty|].
    destruct (JSON_parse s) as [c'|] eqn:Hp;
      [|by rewrite (getConsent_malformed this w s)].
    destruct (decide (valid_at this (now w) c')) as [Hv|Hv].
    + rewrite (getConsent_valid this w s c') by done. cbn. intros [= <-]. by exists s.
    + by rewrite (getConsent_invalid this w s c').
  - intros (s & Hs & Hne & Hp & Hv). by rewrite (getConsent_valid this w s c).
Qed.

(** X4. For a stored entry that is absent, empty, not JSON or the text of a
    [ConsentState], [hasConsent] answers [true] exactly when the entry is
    not empty, parses, has not passed its expiry and carries the current
    version, and answers [false] otherwise. *)
Theorem hasConsent_characterised (this : ConsentStorage) (w : World) :
  typed_entry w →
  (result (hasConsent this) w = Ok true ↔
   ∃ s c, localStorage w !! STORAGE_KEY = Some s ∧ s ≠ EmptyString
          ∧ JSON_parse s = Some c
          ∧ now w ≤ timestamp c + expiryDays this * 86400000
          ∧ version c = STORAGE_VERSION)
  ∧ (result (hasConsent this) w = Ok true ∨ result (hasConsent this) w = Ok false).
Proof.
  intros _.
  assert (Hh : result (hasConsent this) w
               = match result (getConsent this) w with
                 | Ok consent => Ok (bool_decide (consent ≠ None))
                 | Throw e => Throw e
                 end).
  { unfold result. by rewrite hasConsent_run. }
  rewrite Hh. split.
  - split.
    + destruct (result (getConsent this) w) as [[c|]|e] eqn:E; [|done..].
      intros _. apply getConsent_some_iff in E as (s & ? & ? & ? & ? & ?).
      by exists s, c.
    + intros (s & c & Hs & Hne & Hp & Ht & Hv).
      assert (E : result (getConsent this) w = Ok (Some c)).
      { apply getConsent_some_iff. exists s. by repeat split. }
      by rewrite E.
  - destruct (getConsent_returns this w) as (r & ->).
    destruct r; cbn; eauto.
Qed.

(** X5. For a stored entry that is absent, empty, not JSON or the text of a
    [ConsentState], [getCategoryConsent] answers [true] exactly when the
    entry is not empty, parses to a record that is unexpired and of the
    current version, and that record maps the category to [true].
    Otherwise it answers [false]: with no usable record, for a category the
    record denies, and for one the record does not mention. *)
Theorem getCategoryConsent_characterised (this : ConsentStorage)
    (categoryId : string) (w : World) :
  typed_entry w →
  (result (getCategoryConsent this categoryId) w = Ok true ↔
   ∃ s c, localStorage w !! STORAGE_KEY = Some s ∧ s ≠ EmptyString
          ∧ JSON_parse s = Some c
          ∧ now w ≤ timestamp c + expiryDays this * 86400000
          ∧ version c = STORAGE_VERSION
          ∧ categories c !! categoryId = Some true)
  ∧ (result (getCategoryConsent this categoryId) w = Ok true
     ∨ result (getCategoryConsent this categoryId) w = Ok false).
Proof.
  intros _.
  assert (Hc : result (getCategoryConsent this categoryId) w
               = match result (getConsent this) w with
                 | Ok (Some c) => Ok (bool_decide (categories c !! categoryId = Some true))
                 | Ok None => Ok false
                 | Throw e => Throw e
                 end).
  { unfold result, getCategoryConsent, bind.
    by destruct (getConsent this w) as [[[c|]|e] w']. }
  rewrite Hc. split.
  - split.
    + destruct (result (getConsent this) w) as [[c|]|e] eqn:E; [|done..].
      intros [= H]. apply bool_decide_eq_true in H.
      apply getConsent_some_iff in E as (s & ? & ? & ? & ? & ?).
      by exists s, c.
    + intros (s & c & Hs & Hne & Hp & Ht & Hv & Hcat).
      assert (E : result (getConsent this) w = Ok (Some c)).
      { apply getConsent_some_iff. exists s. by repeat split. }
      rewrite E. by rewrite bool_decide_eq_true_2.
  - destruct (getConsent_returns this w) as (r & ->).
    destruct r as [c|]; [|by right].
    destruct (bool_decide _); eauto.
Qed.

(** X6. With no valid record stored, [updateCategoryConsent] returns
    nothing and creates nothing: it issues no [setItem], it leaves the world
    as a plain read would, and a read after it still returns nothing. *)
Theorem update_without_record_creates_nothing (this : ConsentStorage)
    (categoryId : string) (value : bool) (w : World) :
  result (getConsent this) w = Ok None →
  updateCategoryConsent this categoryId value w = (Ok None, after (getConsent this) w)
  ∧ storage_writes (trace (after (updateCategoryConsent this categoryId value) w))
    = storage_writes (trace w)
  ∧ result (getConsent this) (after (updateCategoryConsent this categoryId value) w)
    = Ok None.
Proof.
  unfold result, after. intros Hg.
  destruct (getConsent_cases this w) as [(s & c & _ & _ & _ & E)|[E|E]];
    rewrite E in Hg; [discriminate Hg|..];
    rewrite (updateCategoryConsent_none _ _ _ _ _ E), E; cbn [fst snd].
  - by rewrite E.
  - rewrite getConsent_erased. split_and!; [done| |done].
    unfold storage_writes. cbn. rewrite filter_app. cbn. by rewrite app_nil_r.
Qed.

Lemma getConsent_some_run this w c :
  result (getConsent this) w = Ok (Some c) → getConsent this w = (Ok (Some c), w).
Proof.
  unfold result. intros H.
  destruct (getConsent_cases this w) as [(s & c' & _ & _ & _ & E)|[E|E]];
    rewrite E in H; [|discriminate H..].
  cbn in H. by injection H as <-.
Qed.

(** ** Further properties of the resolver *)

Lemma checkLocation_success this w response data :
  cache_miss this w →
  network w (endpoint this) = Some response →
  ok response = true →
  body response = Some data →
  checkLocation (this, w) =
    let w1 := set_now (now w + latency w) (emit (EvFetch (endpoint this)) w) in
    let res := if includes (endpoint this) "ipapi.co"
               then ipapi_result data else custom_result data in
    (Ok res, (mkGeolocationService (endpoint this) (Some res) (now w + latency w), w1)).
Proof.
  intros Hm Hn Hok Hb. rewrite checkLocation_miss, checkLocation_lookup_run by done.
  cbn zeta. by rewrite Hn, Hok, Hb.
Qed.

(** X8. A lookup that succeeds is cached with the time it completed. For
    the next hour [checkLocation] returns that result without a lookup,
    whatever the network would now answer; from one hour on (3600000 ms
    included) it makes a new lookup. *)
Theorem cache_answers_for_one_hour (this : GeolocationService) (w : World)
    (response : Response) (data : GeoData) :
  cache_miss this w →
  network w (endpoint this) = Some response →
  ok response = true →
  body response = Some data →
  ∃ res this1 w1,
    checkLocation (this, w) = (Ok res, (this1, w1))
    ∧ endpoint this1 = endpoint this
    ∧ cache this1 = Some res
    ∧ cacheTimestamp this1 = now w + latency w
    ∧ (∀ w', now w' - (now w + latency w) < 3600000 →
             checkLocation (this1, w') = (Ok res, (this1, w')))
    ∧ (∀ w', 3600000 ≤ now w' - (now w + latency w) →
             trace (after checkLocation (this1, w')).2
             = trace w' ++ [EvFetch (endpoint this)]).
Proof.
  intros Hm Hn Hok Hb. do 3 eexists.
  split; [by apply (checkLocation_success this w response data)|].
  cbn zeta. split_and!; try done.
  - intros w' Hlt. by apply checkLocation_hit.
  - intros w' Hge. by rewrite checkLocation_miss_trace by (by right).
Qed.

(** X9. [clearCache] drops the cached result: the call that follows makes
    a lookup, however recent the cached result was. *)
Theorem clearCache_forces_lookup (this : GeolocationService) (w : World) :
  result clearCache (this, w) = Ok tt
  ∧ cache (after clearCache (this, w)).1 = None
  ∧ (after clearCache (this, w)).2 = w
  ∧ trace (after checkLocation (after clearCache (this, w))).2
    = trace w ++ [EvFetch (endpoint this)].
Proof.
  split_and!; try done.
  change (after clearCache (this, w))
    with (mkGeolocationService (endpoint this) None 0, w).
  by rewrite checkLocation_miss_trace by (by left).
Qed.

(** X10. A response with a success status whose body is not JSON is
    handled like a failed lookup: [checkLocation] does not throw, returns
    [inEU = true] without country or region, and caches nothing. *)
Theorem unreadable_body_is_failsafe (this : GeolocationService) (w : World)
    (response : Response) :
  cache_miss this w →
  network w (endpoint this) = Some response →
  ok response = true →
  body response = None →
  checkLocation (this, w)
  = (Ok (mkGeolocationResponse true None None),
     (this, set_now (now w + latency w) (emit (EvFetch (endpoint this)) w))).
Proof.
  intros Hm Hn Hok Hb. rewrite checkLocation_miss, checkLocation_lookup_run by done.
  cbn zeta. by rewrite Hn, Hok, Hb.
Qed.

Lemma Array_includes_spec xs x :
  Array_includes xs x = true ↔ ∃ code, x = Some code ∧ code ∈ xs.
Proof.
  destruct x as [code|]; cbn.
  - rewrite existsb_exists. split.
    + intros (y & Hin & Heq). apply String.eqb_eq in Heq as <-.
      exists code. split; [done|]. by apply list_elem_of_In.
    + intros (code' & [= <-] & Hin). exists code.
      split; [by apply list_elem_of_In|apply String.eqb_refl].
  - split; [done|]. by intros (code & ? & _).
Qed.

Lemma or_false_spec a b : or_false a b = true ↔ a = Some true ∨ b = Some true.
Proof.
  destruct a as [[]|], b as [[]|]; cbn; split; try done; eauto; by intros [|].
Qed.

(** X11. What a successful lookup reports. Through the ipapi.co adapter the
    visitor is in the EU exactly when the body has a [country_code] that
    is one of the listed codes; through the custom adapter exactly when
    [inEU] or [in_eu] is [true]. A body without these fields therefore
    reports a visitor outside the EU. *)
Theorem inEU_of_a_successful_lookup (this : GeolocationService) (w : World)
    (response : Response) (data : GeoData) :
  cache_miss this w →
  network w (endpoint this) = Some response →
  ok response = true →
  body response = Some data →
  ∃ loc, result checkLocation (this, w) = Ok loc
    ∧ (includes (endpoint this) "ipapi.co" = true →
       (inEU loc = true ↔ ∃ code, country_code data = Some code ∧ code ∈ euCountries))
    ∧ (includes (endpoint this) "ipapi.co" = false →
       (inEU loc = true ↔ data_inEU data = Some true ∨ in_eu data = Some true))
    ∧ (country_code data = None → data_inEU data = None → in_eu data = None →
       inEU loc = false).
Proof.
  intros Hm Hn Hok Hb. unfold result.
  rewrite (checkLocation_success this w response data) by done. cbn zeta. cbn [fst].
  eexists. split; [done|].
  destruct (includes (endpoint this) "ipapi.co"); cbn; split_and!; try done.
  - intros _. apply Array_includes_spec.
  - by intros ->.
  - intros _. apply or_false_spec.
  - by intros _ -> ->.
Qed.

(** ** Further properties of the dialog *)

Lemma hide_run this w : hide (this, w) = (Ok tt, (hidden this, w)).
Proof. reflexivity. Qed.

Lemma hidden_not_shown this : ¬ prompt_shown (hidden this).
Proof.
  unfold prompt_shown, hidden. intros (el & Hel & Hs).
  destruct (CookieDialog.dialogElement this) as [el'|] eqn:Hd;
    destruct (CookieDialog.overlayElement this) eqn:Ho; cbn in *;
    rewrite ?Hd, ?Ho in *; cbn in *; simplify_eq; cbn in *; congruence.
Qed.

Lemma invoke_run supplied call (this : CookieDialog.t) w :
  invoke supplied call (this, w) = (Ok tt, (this, if supplied then emit call w else w)).
Proof. by destruct supplied. Qed.

(** The world after a record was saved and the hooks [hooks] were called. *)
Lemma saved_then_hooks (st : ConsentStorage) C R L w :
  ∃ w1, after (saveConsent st C R L) w = w1
        ∧ trace w1 = trace w ++ [EvSetItem STORAGE_KEY
                                   (JSON_stringify (mkConsentState (now w) C STORAGE_VERSION R L))]
        ∧ now w1 = now w
        ∧ (setItem_throws w = false →
           localStorage w1 !! STORAGE_KEY
           = Some (JSON_stringify (mkConsentState (now w) C STORAGE_VERSION R L)))
        ∧ (setItem_throws w = true → localStorage w1 = localStorage w).
Proof.
  eexists. split; [done|]. unfold after. rewrite saveConsent_run. cbn zeta. cbn [snd].
  destruct (setItem_throws w); cbn; split_and!; try done.
  intros _. apply lookup_insert_eq.
Qed.

(** What [forEach] leaves under a key: the value of the last declaration
    with that id. *)
Lemma forEach_category_lookup (f : CookieCategory → bool) cats k :
  forEach_category f cats !! k = f <$> last (filter (λ cat, id cat = k) cats).
Proof.
  unfold forEach_category. induction cats as [|cat cats IH] using rev_ind; [done|].
  rewrite foldl_app, filter_app. cbn [foldl].
  destruct (decide (id cat = k)) as [<-|Hne].
  - rewrite lookup_insert_eq, filter_cons_True, filter_nil by done. by rewrite last_snoc.
  - rewrite lookup_insert_ne, filter_cons_False, filter_nil by done.
    by rewrite app_nil_r.
Qed.

Lemma filter_id_none (cats : list CookieCategory) k :
  (∀ c, c ∈ cats → id c ≠ k) → filter (λ cat, id cat = k) cats = [].
Proof.
  induction cats as [|cat cats IH]; intros H; [done|].
  rewrite filter_cons_False by (apply H; by left).
  apply IH. intros c Hc. apply H. by right.
Qed.

Lemma last_filter_NoDup (cats : list CookieCategory) cat :
  NoDup (id <$> cats) → cat ∈ cats →
  last (filter (λ cat', id cat' = id cat) cats) = Some cat.
Proof.
  induction cats as [|cat' cats IH]; intros Hnd Hin; [by apply elem_of_nil in Hin|].
  rewrite fmap_cons in Hnd. apply NoDup_cons in Hnd as [Hnin Hnd].
  assert (Hfresh : ∀ c, id c = id cat' → c ∉ cats).
  { intros c Hc Hcin. apply Hnin. rewrite <- Hc. by apply list_elem_of_fmap_2. }
  apply elem_of_cons in Hin as [->|Hin].
  - rewrite filter_cons_True by done.
    rewrite filter_id_none; [done|].
    intros c Hcin Hc. by apply (Hfresh c).
  - rewrite filter_cons_False; [by apply IH|].
    intros Heq. by apply (Hfresh cat).
Qed.

Lemma acceptAll_run this w :
  acceptAll (this, w) =
    let C := forEach_category (λ _, true) (CookieDialog.categories this) in
    let state := mkConsentState (now w) C STORAGE_VERSION user_accept None in
    let w1 := after (saveConsent (CookieDialog.storage this) C user_accept None) w in
    (Ok tt, (hidden this,
             if Config.onAccept (CookieDialog.config this)
             then emit (EvOnAccept state) w1 else w1)).
Proof.
  unfold acceptAll, bind, gets, liftW, after. cbn [fst]. rewrite saveConsent_run.
  cbn zeta. cbn [fst snd]. rewrite hide_run. cbn. by rewrite invoke_run.
Qed.

Lemma rejectAll_run this w :
  rejectAll (this, w) =
    let C := forEach_category required (CookieDialog.categories this) in
    let w1 := after (saveConsent (CookieDialog.storage this) C user_reject None) w in
    (Ok tt, (hidden this,
             if Config.onReject (CookieDialog.config this)
             then emit EvOnReject w1 else w1)).
Proof.
  unfold rejectAll, bind, gets, liftW, after. cbn [fst]. rewrite saveConsent_run.
  cbn zeta. cbn [fst snd]. rewrite hide_run. cbn. by rewrite invoke_run.
Qed.

Lemma saveSettings_run this w :
  saveSettings (this, w) =
    let boxes := match CookieDialog.dialogElement this with
                 | Some el => checkboxes el
                 | None => []
                 end in
    let C := checked_categories boxes in
    let state := mkConsentState (now w) C STORAGE_VERSION user_accept None in
    let w1 := after (saveConsent (CookieDialog.storage this) C user_accept None) w in
    (Ok tt, (hidden this,
             if Config.onChange (CookieDialog.config this)
             then emit (EvOnChange state) w1 else w1)).
Proof.
  unfold saveSettings, checked_categories, bind, gets, liftW, after. cbn [fst].
  rewrite saveConsent_run. cbn zeta. cbn [fst snd]. rewrite hide_run. cbv beta iota.
  rewrite invoke_run. reflexivity.
Qed.

(** X12. When no declared category has the id [__proto__], [acceptAll]
    builds a record that grants every declared category and nothing else,
    with reason [user_accept] and no location data, issues one [setItem]
    of it, hides the dialog and hands the record to [onAccept] if supplied;
    the record reaches the hook even when [setItem] throws and the stored
    entry stays as it was. *)
Theorem acceptAll_grants_every_category (this : CookieDialog.t) (w : World) :
  (∀ cat, cat ∈ CookieDialog.categories this → id cat ≠ "__proto__") →
  ∃ consent w',
    after acceptAll (this, w) = (hidden this, w')
    ∧ consent = mkConsentState (now w) (categories consent) STORAGE_VERSION user_accept None
    ∧ (∀ key, categories consent !! key =
              if decide (key ∈ id <$> CookieDialog.categories this)
              then Some true else None)
    ∧ requiredTrue (CookieDialog.categories this) (categories consent)
    ∧ trace w' =
        trace w ++ [EvSetItem STORAGE_KEY (JSON_stringify consent)]
        ++ (if Config.onAccept (CookieDialog.config this)
            then [EvOnAccept consent] else [])
    ∧ (setItem_throws w = false →
       localStorage w' !! STORAGE_KEY = Some (JSON_stringify consent))
    ∧ (setItem_throws w = true → localStorage w' = localStorage w)
    ∧ ¬ prompt_shown (hidden this).
Proof.
  intros _. unfold after. rewrite acceptAll_run. cbn zeta.
  set (C := forEach_category (λ _, true) (CookieDialog.categories this)).
  destruct (saved_then_hooks (CookieDialog.storage this) C user_accept None w)
    as (w1 & -> & Htr & _ & Hok & Hfail).
  exists (mkConsentState (now w) C STORAGE_VERSION user_accept None). eexists.
  split; [reflexivity|]. cbn [categories]. split_and!.
  - done.
  - intros key. apply forEach_category_true.
  - intros cat Hin _. unfold C. rewrite forEach_category_true.
    rewrite decide_True; [done|]. by apply list_elem_of_fmap_2.
  - destruct (Config.onAccept _); cbn; rewrite Htr, ?app_nil_r, <- ?app_assoc; done.
  - intros Ht. destruct (Config.onAccept _); by apply Hok.
  - intros Ht. destruct (Config.onAccept _); by apply Hfail.
  - apply hidden_not_shown.
Qed.

(** X13. When no declared category has the id [__proto__], [rejectAll]
    builds a record with reason [user_reject] in which each id carries the
    [required] flag of its last declaration, so that with distinct ids
    every required category is granted and every other one denied; it
    issues one [setItem] of it, hides the dialog and calls [onReject], if
    supplied, without the record. *)
Theorem rejectAll_keeps_only_required (this : CookieDialog.t) (w : World) :
  (∀ cat, cat ∈ CookieDialog.categories this → id cat ≠ "__proto__") →
  ∃ consent w',
    after rejectAll (this, w) = (hidden this, w')
    ∧ consent = mkConsentState (now w) (categories consent) STORAGE_VERSION user_reject None
    ∧ (∀ key, categories consent !! key =
              required <$> last (filter (λ cat, id cat = key)
                                        (CookieDialog.categories this)))
    ∧ (NoDup (id <$> CookieDialog.categories this) →
       ∀ cat, cat ∈ CookieDialog.categories this →
              categories consent !! id cat = Some (required cat))
    ∧ trace w' =
        trace w ++ [EvSetItem STORAGE_KEY (JSON_stringify consent)]
        ++ (if Config.onReject (CookieDialog.config this) then [EvOnReject] else [])
    ∧ (setItem_throws w = false →
       localStorage w' !! STORAGE_KEY = Some (JSON_stringify consent)).
Proof.
  intros _. unfold after. rewrite rejectAll_run. cbn zeta.
  set (C := forEach_category required (CookieDialog.categories this)).
  destruct (saved_then_hooks (CookieDialog.storage this) C user_reject None w)
    as (w1 & -> & Htr & _ & Hok & _).
  exists (mkConsentState (now w) C STORAGE_VERSION user_reject None). eexists.
  split; [reflexivity|]. cbn [categories]. split_and!.
  - done.
  - intros key. apply forEach_category_lookup.
  - intros Hnd cat Hin. unfold C.
    by rewrite forEach_category_lookup, last_filter_NoDup.
  - destruct (Config.onReject _); cbn; rewrite Htr, ?app_nil_r, <- ?app_assoc; done.
  - intros Ht. destruct (Config.onReject _); by apply Hok.
Qed.

(** A read is repeated unchanged: its result comes again, and the world
    it left is left again. *)
Lemma getConsent_again this w r w1 :
  getConsent this w = (Ok r, w1) → getConsent this w1 = (Ok r, w1).
Proof.
  intros E. destruct r as [c|].
  - assert (w1 = w) as ->; [|done].
    pose proof (getConsent_some_run this w c) as H. unfold result in H.
    rewrite E in H. specialize (H eq_refl). congruence.
  - by apply (getConsent_none_again this w).
Qed.

Lemma getCategoryConsent_run this categoryId w r w1 :
  getConsent this w = (Ok r, w1) →
  getCategoryConsent this categoryId w =
    (Ok match r with
        | Some c => bool_decide (categories c !! categoryId = Some true)
        | None => false
        end, w1).
Proof. intros E. unfold getCategoryConsent, bind. rewrite E. by destruct r. Qed.

(** The checkboxes are drawn from one reading of the storage. *)
Lemma renderCategories_run this cats : ∀ w r w1,
  getConsent this w = (Ok r, w1) →
  renderCategories this cats w =
    (Ok (rendered_checkboxes r cats), if cats is [] then w else w1).
Proof.
  induction cats as [|cat cats IH]; intros w r w1 E; [done|].
  cbn [renderCategories]. unfold bind.
  rewrite (getCategoryConsent_run this (id cat) w r w1 E).
  rewrite (IH w1 r w1 (getConsent_again this w r w1 E)).
  unfold ret, rendered_checkboxes. rewrite fmap_cons. by destruct cats.
Qed.

(** [show] on a dialog not yet rendered renders it from the storage. *)
Lemma show_unrendered this w r w1 :
  CookieDialog.dialogElement this = None →
  getConsent (CookieDialog.storage this) w = (Ok r, w1) →
  show (this, w) =
    (Ok tt,
     (CookieDialog.set_dialogElement
        (Some (mkDialogElement true (rendered_checkboxes r (CookieDialog.categories this))))
        (if Config.position (CookieDialog.config this) is center
         then CookieDialog.set_overlayElement (Some true) this else this),
      if CookieDialog.categories this is [] then w else w1)).
Proof.
  intros Hd E. unfold show, bind, gets. cbn [fst]. rewrite Hd.
  unfold render, bind, gets, liftW, modify. cbn [fst].
  destruct (Config.position (CookieDialog.config this)); cbn;
    by rewrite (renderCategories_run _ _ w r w1 E).
Qed.

(** [show] on a rendered dialog only puts it back on screen. *)
Lemma show_rendered this w el :
  CookieDialog.dialogElement this = Some el →
  show (this, w) =
    (Ok tt,
     (let this1 := CookieDialog.set_dialogElement
                     (Some (mkDialogElement true (checkboxes el))) this in
      match CookieDialog.overlayElement this, Config.position (CookieDialog.config this) with
      | Some _, center => CookieDialog.set_overlayElement (Some true) this1
      | _, _ => this1
      end, w)).
Proof.
  intros Hd. unfold show, bind, gets, modify. cbn [fst]. rewrite Hd. cbn.
  by destruct (CookieDialog.overlayElement this),
       (Config.position (CookieDialog.config this)).
Qed.

(** What the checkboxes leave under a key: the state of the last checkbox
    of that category, and nothing under the empty id. *)
Lemma checked_categories_lookup (boxes : list (string * bool)) k :
  checked_categories boxes !! k =
    if decide (k = EmptyString) then None
    else snd <$> last (filter (λ box, box.1 = k) boxes).
Proof.
  unfold checked_categories.
  induction boxes as [|[categoryId checked] boxes IH] using rev_ind.
  - by case_decide.
  - rewrite foldl_app, filter_app. cbn [foldl].
    destruct (String.eqb_spec categoryId EmptyString) as [->|Hne].
    + rewrite IH. case_decide; [done|].
      rewrite filter_cons_False, filter_nil by (cbn; congruence).
      by rewrite app_nil_r.
    + destruct (decide (categoryId = k)) as [<-|Hk].
      * rewrite lookup_insert_eq, decide_False by done.
        rewrite filter_cons_True, filter_nil by done. by rewrite last_snoc.
      * rewrite lookup_insert_ne, IH by done.
        rewrite filter_cons_False, filter_nil by done. by rewrite app_nil_r.
Qed.

(** X14. When no checkbox of the dialog carries the id [__proto__],
    [saveSettings] stores, with reason [user_accept], the state of the
    checkboxes: under each non-empty category id the state of the last
    checkbox of that id, nothing under the empty id and nothing else.
    Called before the dialog was rendered it stores a record with no
    category at all. It hides the dialog and hands the record to
    [onChange], if supplied. *)
Theorem saveSettings_stores_the_checkboxes (this : CookieDialog.t) (w : World) :
  let boxes := match CookieDialog.dialogElement this with
               | Some el => checkboxes el
               | None => []
               end in
  (∀ box, box ∈ boxes → box.1 ≠ "__proto__") →
  ∃ consent w',
    after saveSettings (this, w) = (hidden this, w')
    ∧ consent = mkConsentState (now w) (categories consent) STORAGE_VERSION user_accept None
    ∧ (∀ key, categories consent !! key =
              if decide (key = EmptyString) then None
              else snd <$> last (filter (λ box, box.1 = key) boxes))
    ∧ (CookieDialog.dialogElement this = None → categories consent = ∅)
    ∧ trace w' =
        trace w ++ [EvSetItem STORAGE_KEY (JSON_stringify consent)]
        ++ (if Config.onChange (CookieDialog.config this)
            then [EvOnChange consent] else [])
    ∧ (setItem_throws w = false →
       localStorage w' !! STORAGE_KEY = Some (JSON_stringify consent)).
Proof.
  intros boxes _. unfold after. rewrite saveSettings_run. cbn zeta. fold boxes.
  set (C := checked_categories boxes).
  destruct (saved_then_hooks (CookieDialog.storage this) C user_accept None w)
    as (w1 & -> & Htr & _ & Hok & _).
  exists (mkConsentState (now w) C STORAGE_VERSION user_accept None). eexists.
  split; [reflexivity|]. cbn [categories]. split_and!.
  - done.
  - intros key. apply checked_categories_lookup.
  - intros Hd. unfold C, boxes. by rewrite Hd.
  - destruct (Config.onChange _); cbn; rewrite Htr, ?app_nil_r, <- ?app_assoc; done.
  - intros Ht. destruct (Config.onChange _); by apply Hok.
Qed.

(** Once a read has returned nothing, reads return nothing at any later
    time, as long as the stored entry is the one that read left. *)
Lemma getConsent_none_stable this w w' w'' :
  getConsent this w = (Ok None, w') →
  localStorage w'' = localStorage w' →
  getConsent this w'' = (Ok None, w'').
Proof.
  intros E Hs.
  destruct (localStorage w !! STORAGE_KEY) as [s|] eqn:Hk.
  - destruct (decide (s = EmptyString)) as [->|Hne].
    { rewrite getConsent_empty in E by done. injection E as <-.
      apply getConsent_empty. by rewrite Hs. }
    destruct (JSON_parse s) as [c|] eqn:Hp.
    + destruct (decide (valid_at this (now w) c)) as [Hv|Hv].
      * rewrite (getConsent_valid this w s c) in E by done. discriminate E.
      * rewrite (getConsent_invalid this w s c) in E by done. injection E as <-.
        apply getConsent_absent. rewrite Hs. cbn. apply lookup_delete_eq.
    + rewrite (getConsent_malformed this w s) in E by done. injection E as <-.
      apply (getConsent_malformed this w'' s); [by rewrite Hs|done].
  - rewrite getConsent_absent in E by done. injection E as <-.
    apply getConsent_absent. by rewrite Hs.
Qed.

(** X16. [forceShow] overrides a valid record without disturbing it. With
    [forceShow] and [autoShow] on, geolocation off and the dialog not yet
    rendered, [init] renders the prompt with each checkbox checked when
    its category is required or granted by the stored record; it calls no
    hook, makes no lookup and leaves the stored record in place. *)
Theorem forceShow_prompts_over_valid_consent (this : CookieDialog.t) (w : World)
    (c : ConsentState) :
  let config := CookieDialog.config this in
  Config.forceShow config = true →
  Config.autoShow config = true →
  Config.enableLocation config = false ∨ CookieDialog.geolocation this = None →
  CookieDialog.dialogElement this = None →
  result (getConsent (CookieDialog.storage this)) w = Ok (Some c) →
  ∃ this1,
    init (this, w) = (Ok tt, (this1, w))
    ∧ CookieDialog.dialogElement this1
      = Some (mkDialogElement true
                (rendered_checkboxes (Some c) (CookieDialog.categories this)))
    ∧ result (getConsent (CookieDialog.storage this)) (after init (this, w)).2
      = Ok (Some c).
Proof.
  intros config Hf Ha Hoff Hd Hg. subst config.
  rewrite (init_forced this w Hf), (init_location_disabled this w Hoff), Ha.
  apply getConsent_some_run in Hg as Hrun.
  rewrite (show_unrendered this w (Some c) w Hd Hrun).
  eexists. split.
  - f_equal. f_equal. by destruct (CookieDialog.categories this).
  - split; [by destruct (Config.position _)|].
    unfold after. rewrite (init_forced this w Hf), (init_location_disabled this w Hoff), Ha.
    rewrite (show_unrendered this w (Some c) w Hd Hrun). cbn [snd].
    by destruct (CookieDialog.categories this).
Qed.

Lemma lookups_app tr1 tr2 : lookups (tr1 ++ tr2) = (lookups tr1 + lookups tr2)%nat.
Proof. unfold lookups. by rewrite filter_app, length_app. Qed.

Lemma storage_writes_app tr1 tr2 :
  storage_writes (tr1 ++ tr2) = (storage_writes tr1 + storage_writes tr2)%nat.
Proof. unfold storage_writes. by rewrite filter_app, length_app. Qed.

(** A read adds at most the removal of the entry to the trace. *)
Lemma getConsent_trace this w :
  trace (after (getConsent this) w) = trace w
  ∨ trace (after (getConsent this) w) = trace w ++ [EvRemoveItem STORAGE_KEY].
Proof.
  unfold after.
  destruct (getConsent_cases this w) as [(s & c & _ & _ & _ & E)|[E|E]]; rewrite E;
    cbn; eauto.
Qed.

Lemma hasConsent_false_getConsent this w :
  result (hasConsent this) w = Ok false →
  getConsent this w = (Ok None, after (hasConsent this) w).
Proof.
  unfold result, after. rewrite hasConsent_run. cbn [fst snd].
  destruct (getConsent this w) as [[[c|]|e] w']; cbn; by intros [=].
Qed.

(** X17. A failed lookup during [init] grants nothing. With geolocation
    enabled, [forceShow] off, no valid record stored and the cache empty or
    stale, when the lookup is rejected, comes back with a non-success status
    or with a body that is not JSON, [init] does not throw, issues no
    [setItem] and calls no hook: past the read and the one lookup its only
    effect is to show the prompt if [autoShow] is on. No consent exists
    afterwards and the resolver's cache is as it was. *)
Theorem failed_lookup_prompts_and_stores_nothing (this : CookieDialog.t) (w : World)
    (g : GeolocationService) :
  let config := CookieDialog.config this in
  let storage := CookieDialog.storage this in
  Config.enableLocation config = true →
  Config.forceShow config = false →
  CookieDialog.geolocation this = Some g →
  result (hasConsent storage) w = Ok false →
  cache_miss g w →
  (network w (endpoint g) = None
   ∨ ∃ response, network w (endpoint g) = Some response
                 ∧ (ok response = false ∨ body response = None)) →
  let w1 := set_now (now w + latency w)
              (emit (EvFetch (endpoint g)) (after (hasConsent storage) w)) in
  ∃ this1,
    init (this, w) = (Ok tt, (this1, w1))
    ∧ CookieDialog.geolocation this1 = Some g
    ∧ (Config.autoShow config = true → prompt_shown this1)
    ∧ (Config.autoShow config = false →
       CookieDialog.dialogElement this1 = CookieDialog.dialogElement this)
    ∧ storage_writes (trace w1) = storage_writes (trace w)
    ∧ result (hasConsent storage) w1 = Ok false.
Proof.
  intros config storage He Hf Hg Hh Hm Hfail w1. subst config storage.
  set (st := CookieDialog.storage this) in *.
  pose proof (hasConsent_false_getConsent st w Hh) as E.
  set (w0 := after (hasConsent st) w) in *.
  destruct (getConsent_frame st w) as (Hnow & _ & Hnet & Hlat & _).
  unfold after in Hnow, Hnet, Hlat. rewrite E in Hnow, Hnet, Hlat. cbn [snd] in *.
  assert (Hc : checkLocation (g, w0) = (Ok failsafe_result, (g, w1))).
  { rewrite checkLocation_miss, checkLocation_lookup_run.
    - cbn zeta. rewrite Hnet, Hnow, Hlat. fold w1.
      destruct Hfail as [->|(response & -> & [Hok|Hb])]; [done| |].
      + by rewrite Hok.
      + rewrite Hb. by destruct (ok response).
    - destruct Hm as [?|Hm]; [by left|right]. by rewrite Hnow. }
  assert (Hread : getConsent st w1 = (Ok None, w1)).
  { by apply (getConsent_none_stable st w w0). }
  assert (Hwrites : storage_writes (trace w1) = storage_writes (trace w)).
  { unfold w1. cbn [trace set_now emit]. rewrite storage_writes_app.
    assert (storage_writes [EvFetch (endpoint g)] = 0%nat) as -> by reflexivity.
    pose proof (getConsent_trace st w) as Ht. unfold after in Ht. rewrite E in Ht.
    cbn [snd] in Ht. destruct Ht as [->| ->]; [lia|].
    rewrite storage_writes_app.
    assert (storage_writes [EvRemoveItem STORAGE_KEY] = 0%nat) as -> by reflexivity.
    lia. }
  assert (Hhas : result (hasConsent st) w1 = Ok false).
  { unfold result. by rewrite hasConsent_run, Hread. }
  rewrite (init_absent this w Hf Hh). fold st w0.
  rewrite (init_location_enabled this w0 g failsafe_result g w1 He Hg Hc).
  cbn [inEU failsafe_result negb andb].
  set (this0 := CookieDialog.set_geolocation (Some g) this).
  destruct (Config.autoShow (CookieDialog.config this)) eqn:Ha.
  - destruct (CookieDialog.dialogElement this) as [el|] eqn:Hd.
    + rewrite (show_rendered this0 w1 el) by done. eexists. split; [reflexivity|].
      split_and!; try done.
      * by destruct (CookieDialog.overlayElement this0),
             (Config.position (CookieDialog.config this0)).
      * intros _. eexists.
        by destruct (CookieDialog.overlayElement this0),
             (Config.position (CookieDialog.config this0)).
    + rewrite (show_unrendered this0 w1 None w1) by done. eexists. split.
      * f_equal. f_equal. by destruct (CookieDialog.categories this0).
      * split_and!; try done.
        -- by destruct (Config.position (CookieDialog.config this0)).
        -- intros _. by eexists.
  - exists this0. by split_and!.
Qed.

Lemma trace_grows_refl w : trace_grows 0 0 w w.
Proof. exists []. by rewrite app_nil_r. Qed.

Lemma trace_grows_trans n m n' m' w w' w'' :
  trace_grows n m w w' → trace_grows n' m' w' w'' →
  trace_grows (n + n') (m + m') w w''.
Proof.
  intros (tr & Ht & Hl & Hs) (tr' & Ht' & Hl' & Hs'). exists (tr ++ tr').
  rewrite Ht', Ht, app_assoc, lookups_app, storage_writes_app.
  split; [done|]. lia.
Qed.

Lemma trace_grows_event n m w w' e :
  trace w' = trace w ++ [e] →
  ((if is_fetch e then 1 else 0) ≤ n)%nat →
  ((if is_setItem e then 1 else 0) ≤ m)%nat →
  trace_grows n m w w'.
Proof.
  intros Ht Hn Hm. exists [e]. split; [done|].
  assert (lookups [e] = if is_fetch e then 1 else 0)%nat as -> by (by destruct e).
  assert (storage_writes [e] = if is_setItem e then 1 else 0)%nat as ->
    by (by destruct e).
  done.
Qed.

Lemma getConsent_grows this w : trace_grows 0 0 w (after (getConsent this) w).
Proof.
  destruct (getConsent_trace this w) as [H|H].
  - exists []. by rewrite app_nil_r.
  - by apply (trace_grows_event _ _ _ _ _ H).
Qed.

Lemma invoke_grows (supplied : bool) call w :
  is_fetch call = false → is_setItem call = false →
  trace_grows 0 0 w (if supplied then emit call w else w).
Proof.
  intros Hf Hs. destruct supplied; [|apply trace_grows_refl].
  apply (trace_grows_event _ _ _ _ call); [done|by rewrite Hf|by rewrite Hs].
Qed.

Lemma saveConsent_grows this C R L w :
  trace_grows 0 1 w (after (saveConsent this C R L) w).
Proof.
  destruct (saved_then_hooks this C R L w) as (w1 & -> & Ht & _).
  by apply (trace_grows_event _ _ _ _ _ Ht).
Qed.

Lemma checkLocation_grows g w loc g1 w1 :
  checkLocation (g, w) = (Ok loc, (g1, w1)) → trace_grows 1 0 w w1.
Proof.
  intros E. destruct (cache g) as [cached|] eqn:Hc.
  - destruct (decide (now w - cacheTimestamp g < CACHE_DURATION)) as [Hlt|Hge].
    + rewrite (checkLocation_hit g w cached) in E by done. injection E as _ _ <-.
      exists []. rewrite app_nil_r. cbn. split; [done|lia].
    + pose proof (checkLocation_miss_trace g w ltac:(right; lia)) as Ht.
      unfold after in Ht. rewrite E in Ht.
      by apply (trace_grows_event _ _ _ _ _ Ht).
  - pose proof (checkLocation_miss_trace g w ltac:(by left)) as Ht.
    unfold after in Ht. rewrite E in Ht.
    by apply (trace_grows_event _ _ _ _ _ Ht).
Qed.

Lemma show_grows this w :
  ∃ this1 w1, show (this, w) = (Ok tt, (this1, w1)) ∧ trace_grows 0 0 w w1.
Proof.
  destruct (CookieDialog.dialogElement this) as [el|] eqn:Hd.
  - rewrite (show_rendered this w el Hd). do 2 eexists. split; [done|].
    apply trace_grows_refl.
  - destruct (getConsent (CookieDialog.storage this) w) as [[r|e] w1] eqn:E.
    + rewrite (show_unrendered this w r w1 Hd E). do 2 eexists. split; [done|].
      destruct (CookieDialog.categories this); [apply trace_grows_refl|].
      pose proof (getConsent_grows (CookieDialog.storage this) w) as H.
      unfold after in H. by rewrite E in H.
    + destruct (getConsent_returns (CookieDialog.storage this) w) as (r & Hr).
      unfold result in Hr. rewrite E in Hr. discriminate Hr.
Qed.

(** What the geolocation branch of [init] adds to the trace. *)
Lemma init_location_grows this w :
  ∃ returned this1 w1,
    init_location (this, w) = (Ok returned, (this1, w1))
    ∧ trace_grows 1 1 w w1
    ∧ (Config.enableLocation (CookieDialog.config this) = false
       ∨ CookieDialog.geolocation this = None → this1 = this ∧ w1 = w ∧ returned = false)
    ∧ (returned = false → trace_grows 1 0 w w1).
Proof.
  destruct (Config.enableLocation (CookieDialog.config this)) eqn:He.
  2:{ rewrite init_location_disabled by (by left). do 3 eexists. split; [done|].
      split_and!; try done.
      - exists []. rewrite app_nil_r. cbn. split; [done|lia].
      - intros _. exists []. rewrite app_nil_r. cbn. split; [done|lia]. }
  destruct (CookieDialog.geolocation this) as [g|] eqn:Hg.
  2:{ rewrite init_location_disabled by (by right). do 3 eexists. split; [done|].
      split_and!; try done.
      - exists []. rewrite app_nil_r. cbn. split; [done|lia].
      - intros _. exists []. rewrite app_nil_r. cbn. split; [done|lia]. }
  destruct (checkLocation_ok g w) as (loc & g1 & w1 & Hc).
  pose proof (checkLocation_grows g w loc g1 w1 Hc) as Hgrow.
  rewrite (init_location_enabled this w g loc g1 w1 He Hg Hc).
  destruct (negb (inEU loc) && negb (Config.forceShow (CookieDialog.config this))).
  - cbn zeta. do 3 eexists. split; [done|]. split_and!.
    + set (consent := exempt_record this loc (now w1)).
      set (w2 := after (saveConsent _ _ _ _) w1).
      assert (Hs : trace_grows 0 1 w1 w2) by apply saveConsent_grows.
      assert (Hh : trace_grows 0 0 w2
                     (mkWorld (now w2) (localStorage w2) (setItem_throws w2) (network w2)
                        (latency w2)
                        (trace w2 ++ exempt_hooks (CookieDialog.config this) loc consent))).
      { exists (exempt_hooks (CookieDialog.config this) loc consent). split; [done|].
        unfold exempt_hooks.
        destruct (Config.onLocationNotRequired _), (Config.onAccept _);
          split; apply Nat.le_refl. }
      apply (trace_grows_trans 1 0 0 1 w w1 _ Hgrow).
      apply (trace_grows_trans 0 1 0 0 w1 w2 _ Hs Hh).
    + intros [?|?]; congruence.
    + done.
  - do 3 eexists. split; [done|]. split_and!.
    + destruct Hgrow as (tr & ? & ? & ?). exists tr. split; [done|]. lia.
    + intros [?|?]; congruence.
    + done.
Qed.

(** What [init] adds to the trace, on every path. *)
Lemma init_effects (this : CookieDialog.t) (w : World) :
  ∃ this1 w1 n m,
    init (this, w) = (Ok tt, (this1, w1))
    ∧ trace_grows n m w w1
    ∧ (n ≤ 1)%nat ∧ (m ≤ 1)%nat
    ∧ (Config.enableLocation (CookieDialog.config this) = false
       ∨ CookieDialog.geolocation this = None → n = 0%nat ∧ m = 0%nat).
Proof.
  assert (Hgoal : ∀ this1 w1 n m,
            init (this, w) = (Ok tt, (this1, w1)) →
            trace_grows n m w w1 → (n ≤ 1)%nat → (m ≤ 1)%nat →
            (Config.enableLocation (CookieDialog.config this) = false
             ∨ CookieDialog.geolocation this = None → n = 0%nat ∧ m = 0%nat) →
            ∃ this1 w1 n m,
              init (this, w) = (Ok tt, (this1, w1))
              ∧ trace_grows n m w w1
              ∧ (n ≤ 1)%nat ∧ (m ≤ 1)%nat
              ∧ (Config.enableLocation (CookieDialog.config this) = false
                 ∨ CookieDialog.geolocation this = None → n = 0%nat ∧ m = 0%nat)).
  { intros this1 w1 n m E Hgrow Hn Hm Hoff. by exists this1, w1, n, m. }
  set (st := CookieDialog.storage this).
  assert (Hcont : ∀ w0, trace_grows 0 0 w w0 →
            init (this, w) =
              match init_location (this, w0) with
              | (Ok true, s) => (Ok tt, s)
              | (Ok false, s) =>
                  if Config.autoShow (CookieDialog.config this) then show s
                  else (Ok tt, s)
              | (Throw e, s) => (Throw e, s)
              end →
            ∃ this1 w1 n m,
              init (this, w) = (Ok tt, (this1, w1))
              ∧ trace_grows n m w w1
              ∧ (n ≤ 1)%nat ∧ (m ≤ 1)%nat
              ∧ (Config.enableLocation (CookieDialog.config this) = false
                 ∨ CookieDialog.geolocation this = None → n = 0%nat ∧ m = 0%nat)).
  { intros w0 Hw0 E.
    destruct (init_location_grows this w0)
      as (returned & this1 & w1 & El & Hg11 & Hoff & Hg10).
    rewrite El in E. destruct returned.
    - destruct (decide (Config.enableLocation (CookieDialog.config this) = false
                        ∨ CookieDialog.geolocation this = None)) as [H|H].
      + by destruct (Hoff H) as (_ & _ & ?).
      + apply (Hgoal this1 w1 1%nat 1%nat E); [|lia|lia|by intros ?].
        apply (trace_grows_trans 0 0 1 1 w w0 w1 Hw0 Hg11).
    - specialize (Hg10 eq_refl).
      assert (∃ this2 w2,
                (if Config.autoShow (CookieDialog.config this) then show (this1, w1)
                 else (Ok tt, (this1, w1))) = (Ok tt, (this2, w2))
                ∧ trace_grows 0 0 w1 w2) as (this2 & w2 & Es & Hs).
      { destruct (Config.autoShow _); [apply show_grows|].
        do 2 eexists. split; [done|apply trace_grows_refl]. }
      rewrite Es in E.
      destruct (decide (Config.enableLocation (CookieDialog.config this) = false
                        ∨ CookieDialog.geolocation this = None)) as [H|H].
      + destruct (Hoff H) as (_ & -> & _).
        apply (Hgoal this2 w2 0%nat 0%nat E); [|lia|lia|done].
        apply (trace_grows_trans 0 0 0 0 w w0 w2 Hw0 Hs).
      + apply (Hgoal this2 w2 1%nat 0%nat E); [|lia|lia|by intros ?].
        apply (trace_grows_trans 0 0 1 0 w w0 w2 Hw0).
        apply (trace_grows_trans 1 0 0 0 w0 w1 w2 Hg10 Hs). }
  destruct (Config.forceShow (CookieDialog.config this)) eqn:Hf.
  - apply (Hcont w); [apply trace_grows_refl|by apply init_forced].
  - destruct (getConsent_returns st w) as (r & Hr).
    destruct r as [c|].
    + apply getConsent_some_run in Hr as Hrun.
      assert (E : init (this, w) =
                  (Ok tt, (this, if Config.onAccept (CookieDialog.config this)
                                 then emit (EvOnAccept c) w else w))).
      { unfold init, bind, gets, liftW. cbn [fst]. rewrite Hf. cbn [negb].
        fold st. rewrite hasConsent_run, Hrun. cbn. rewrite Hrun.
        by rewrite invoke_run. }
      apply (Hgoal _ _ 0%nat 0%nat E); [|lia|lia|done].
      by apply invoke_grows.
    + assert (Hh : result (hasConsent st) w = Ok false).
      { unfold result in *. rewrite hasConsent_run.
        destruct (getConsent st w) as [[r|e] w']; cbn in *; by simplify_eq. }
      apply (Hcont (after (hasConsent st) w)); [|by apply init_absent].
      unfold after. rewrite hasConsent_run. cbn [snd]. apply getConsent_grows.
Qed.

(** X18. [init] is frugal: whatever the storage, the quota and the network
    do, it issues at most one lookup and at most one [setItem], and
    neither of them when geolocation is disabled or no resolver exists. *)
Theorem init_is_frugal (this : CookieDialog.t) (w : World) :
  ∃ tr,
    trace (after init (this, w)).2 = trace w ++ tr
    ∧ (lookups tr ≤ 1)%nat
    ∧ (storage_writes tr ≤ 1)%nat
    ∧ (Config.enableLocation (CookieDialog.config this) = false
       ∨ CookieDialog.geolocation this = None →
       lookups tr = 0%nat ∧ storage_writes tr = 0%nat).
Proof.
  destruct (init_effects this w) as (this1 & w1 & n & m & E & (tr & Ht & Hl & Hs)
                                      & Hn & Hm & Hoff).
  exists tr. unfold after. rewrite E. split_and!; [done|lia|lia|].
  intros H. destruct (Hoff H) as [-> ->]. lia.
Qed.

(** X23. A dialog constructed without [enableLocation: true] has no
    resolver, and its [init] never makes a lookup nor writes to the
    storage, whatever else the configuration holds; built with it, the
    dialog has a resolver with an empty cache on the custom endpoint, or on
    the default one when none or an empty one is given. *)
Theorem constructed_without_location_never_looks_up (userConfig : UserConfig.t)
    (w : World) :
  (UserConfig.enableLocation userConfig ≠ Some true →
   CookieDialog.geolocation (new_CookieDialog userConfig) = None
   ∧ ∃ this1 w1 tr,
       init (new_CookieDialog userConfig, w) = (Ok tt, (this1, w1))
       ∧ trace w1 = trace w ++ tr
       ∧ lookups tr = 0%nat
       ∧ storage_writes tr = 0%nat)
  ∧ (UserConfig.enableLocation userConfig = Some true →
     ∃ g, CookieDialog.geolocation (new_CookieDialog userConfig) = Some g
          ∧ cache g = None
          ∧ endpoint g = match UserConfig.geolocationEndpoint userConfig with
                         | None | Some EmptyString => "https://ipapi.co/json/"
                         | Some url => url
                         end).
Proof.
  split.
  - intros Hoff.
    assert (Hg : CookieDialog.geolocation (new_CookieDialog userConfig) = None).
    { unfold new_CookieDialog, mergeConfig. cbn.
      by destruct (UserConfig.enableLocation userConfig) as [[]|]. }
    split; [done|].
    destruct (init_effects (new_CookieDialog userConfig) w)
      as (this1 & w1 & n & m & E & (tr & Ht & Hl & Hs) & _ & _ & Hzero).
    destruct (Hzero (or_intror Hg)) as [-> ->].
    exists this1, w1, tr. split_and!; [done|done|lia|lia].
  - intros Hon. unfold new_CookieDialog, mergeConfig. cbn. rewrite Hon. cbn.
    eexists. split; [done|]. split; [done|]. cbn.
    by destruct (UserConfig.geolocationEndpoint userConfig) as [[]|].
Qed.


Lemma init_existing this w c :
  Config.forceShow (CookieDialog.config this) = false →
  getConsent (CookieDialog.storage this) w = (Ok (Some c), w) →
  init (this, w) =
    (Ok tt, (this, if Config.onAccept (CookieDialog.config this)
                   then emit (EvOnAccept c) w else w)).
Proof.
  intros Hf Hrun. unfold init, bind, gets, liftW. cbn [fst]. rewrite Hf. cbn [negb].
  rewrite hasConsent_run, Hrun. cbn. rewrite Hrun. by rewrite invoke_run.
Qed.

Lemma hidden_config this : CookieDialog.config (hidden this) = CookieDialog.config this.
Proof.
  unfold hidden.
  destruct (CookieDialog.dialogElement this); cbn;
    by destruct (CookieDialog.overlayElement this).
Qed.

Lemma hidden_storage this : CookieDialog.storage (hidden this) = CookieDialog.storage this.
Proof.
  unfold hidden.
  destruct (CookieDialog.dialogElement this); cbn;
    by destruct (CookieDialog.overlayElement this).
Qed.

(** X19. [show] does not render twice. On a rendered dialog, hidden or
    not, it puts the element back on screen with the checkboxes it was
    rendered with and does not consult the storage, so a decision taken in
    between is not reflected; after [destroy] it renders afresh from the
    storage. *)
Theorem show_renders_once (this : CookieDialog.t) (w : World) (el : DialogElement) :
  CookieDialog.dialogElement this = Some el →
  (∃ this1, show (hidden this, w) = (Ok tt, (this1, w))
            ∧ CookieDialog.dialogElement this1
              = Some (mkDialogElement true (checkboxes el)))
  ∧ (∃ this2 w2, show (after acceptAll (this, w)) = (Ok tt, (this2, w2))
                 ∧ w2 = (after acceptAll (this, w)).2
                 ∧ CookieDialog.dialogElement this2
                   = Some (mkDialogElement true (checkboxes el)))
  ∧ (∀ r w1, getConsent (CookieDialog.storage this) w = (Ok r, w1) →
       ∃ this3 w3, show (after destroy (this, w)) = (Ok tt, (this3, w3))
                   ∧ CookieDialog.dialogElement this3
                     = Some (mkDialogElement true
                               (rendered_checkboxes r (CookieDialog.categories this)))).
Proof.
  intros Hd.
  assert (Hh : CookieDialog.dialogElement (hidden this)
               = Some (mkDialogElement false (checkboxes el))).
  { unfold hidden. rewrite Hd. cbn. by destruct (CookieDialog.overlayElement this). }
  split_and!.
  - rewrite (show_rendered (hidden this) w _ Hh). eexists. split; [done|].
    by destruct (CookieDialog.overlayElement (hidden this)),
         (Config.position (CookieDialog.config (hidden this))).
  - unfold after. rewrite acceptAll_run. cbn zeta. cbn [snd].
    rewrite (show_rendered (hidden this) _ _ Hh). do 2 eexists.
    split; [done|]. split; [done|].
    by destruct (CookieDialog.overlayElement (hidden this)),
         (Config.position (CookieDialog.config (hidden this))).
  - intros r w1 E.
    change (after destroy (this, w))
      with (CookieDialog.set_overlayElement None
              (CookieDialog.set_dialogElement None this), w).
    rewrite (show_unrendered _ w r w1); [|done|exact E].
    do 2 eexists. split; [done|]. cbn.
    by destruct (Config.position (CookieDialog.config this)).
Qed.

(** X21. Stale consent is erased and asked for again. With [forceShow]
    off, geolocation off and [autoShow] on, when the stored entry parses to
    a record that is expired or of another version, [init] removes the
    entry, calls no hook and shows the prompt. *)
Theorem stale_consent_is_erased_and_reprompted (this : CookieDialog.t) (w : World)
    (s : string) (c : ConsentState) :
  let config := CookieDialog.config this in
  let storage := CookieDialog.storage this in
  Config.forceShow config = false →
  Config.autoShow config = true →
  Config.enableLocation config = false ∨ CookieDialog.geolocation this = None →
  localStorage w !! STORAGE_KEY = Some s →
  s ≠ EmptyString →
  JSON_parse s = Some c →
  ¬ (now w ≤ timestamp c + expiryDays storage * 86400000
     ∧ version c = STORAGE_VERSION) →
  ∃ this1,
    init (this, w) = (Ok tt, (this1, erased w))
    ∧ prompt_shown this1
    ∧ localStorage (erased w) !! STORAGE_KEY = None
    ∧ trace (erased w) = trace w ++ [EvRemoveItem STORAGE_KEY].
Proof.
  intros config storage Hf Ha Hoff Hs Hne Hp Hv. subst config storage.
  set (st := CookieDialog.storage this) in *.
  pose proof (getConsent_invalid st w s c Hs Hne Hp Hv) as E.
  assert (Hh : result (hasConsent st) w = Ok false).
  { unfold result. by rewrite hasConsent_run, E. }
  assert (Hw0 : after (hasConsent st) w = erased w).
  { unfold after. by rewrite hasConsent_run, E. }
  rewrite (init_absent this w Hf Hh). fold st. rewrite Hw0.
  rewrite (init_location_disabled this (erased w) Hoff), Ha.
  assert (Hread : getConsent st (erased w) = (Ok None, erased w))
    by apply getConsent_erased.
  destruct (CookieDialog.dialogElement this) as [el|] eqn:Hd.
  - rewrite (show_rendered this (erased w) el Hd). eexists. split; [reflexivity|].
    split_and!; [|cbn; apply lookup_delete_eq|done].
    eexists. by destruct (CookieDialog.overlayElement this),
                  (Config.position (CookieDialog.config this)).
  - rewrite (show_unrendered this (erased w) None (erased w) Hd Hread).
    eexists. split.
    + f_equal. f_equal. by destruct (CookieDialog.categories this).
    + split_and!; [by eexists|cbn; apply lookup_delete_eq|done].
Qed.

(** X24. A lookup that succeeds without saying where the visitor is counts
    as a region that needs no consent. With geolocation enabled, [forceShow]
    off, no valid record stored and nothing cached, when the response has a
    success status and a JSON body with neither [country_code] nor [inEU]
    nor [in_eu], [init] accepts every declared category on the visitor's
    behalf, with reason [location_not_required], and shows no prompt. *)
Theorem silent_lookup_is_auto_accepted (this : CookieDialog.t) (w : World)
    (g : GeolocationService) (response : Response) (data : GeoData) :
  let config := CookieDialog.config this in
  let storage := CookieDialog.storage this in
  Config.enableLocation config = true →
  Config.forceShow config = false →
  CookieDialog.geolocation this = Some g →
  cache g = None →
  result (hasConsent storage) w = Ok false →
  network w (endpoint g) = Some response →
  ok response = true →
  body response = Some data →
  country_code data = None → data_inEU data = None → in_eu data = None →
  ∃ consent this1 w2,
    init (this, w) = (Ok tt, (this1, w2))
    ∧ CookieDialog.dialogElement this1 = CookieDialog.dialogElement this
    ∧ reason consent = location_not_required
    ∧ (∀ cat, cat ∈ CookieDialog.categories this →
              categories consent !! id cat = Some true)
    ∧ storage_writes (trace w2) = S (storage_writes (trace w))
    ∧ (setItem_throws w = false →
       localStorage w2 !! STORAGE_KEY = Some (JSON_stringify consent)).
Proof.
  intros config storage He Hf Hg Hcache Hh Hn Hok Hb Hcc Hi1 Hi2.
  subst config storage. set (st := CookieDialog.storage this) in *.
  set (w0 := after (hasConsent st) w).
  assert (Hframe : same_outside_consent w w0).
  { unfold w0, after. rewrite hasConsent_run. cbn [snd]. apply getConsent_frame. }
  destruct Hframe as (Hnow & Hthrows & Hnet & Hlat & _).
  assert (Htr0 : storage_writes (trace w0) = storage_writes (trace w)).
  { unfold w0, after. rewrite hasConsent_run. cbn [snd].
    destruct (getConsent_trace st w) as [H|H]; unfold after in H; rewrite H; [done|].
    rewrite storage_writes_app.
    assert (storage_writes [EvRemoveItem STORAGE_KEY] = 0%nat) as -> by reflexivity.
    lia. }
  pose proof (checkLocation_success g w0 response data (or_introl Hcache)) as Hc.
  rewrite Hnet in Hc. specialize (Hc Hn Hok Hb). cbn zeta in Hc.
  set (loc := if includes (endpoint g) "ipapi.co" then ipapi_result data
              else custom_result data) in Hc.
  assert (Hloc : inEU loc = false).
  { unfold loc, ipapi_result, custom_result.
    destruct (includes _ _); cbn; by rewrite ?Hcc, ?Hi1, ?Hi2. }
  rewrite (init_absent this w Hf Hh). fold st w0.
  rewrite (init_location_enabled this w0 g loc _ _ He Hg Hc).
  rewrite Hloc, Hf. cbn [negb andb]. cbn zeta.
  exists (exempt_record this loc (now w0 + latency w0)). do 2 eexists.
  split; [reflexivity|]. split_and!; try done.
  - intros cat Hin. cbn. rewrite forEach_category_true.
    rewrite decide_True; [done|]. by apply list_elem_of_fmap_2.
  - cbn [trace]. unfold after. rewrite saveConsent_run. cbn zeta. cbn [snd].
    rewrite storage_writes_app.
    assert (∀ c, storage_writes (exempt_hooks (CookieDialog.config this) loc c) = 0%nat)
      as ->.
    { intros c. unfold exempt_hooks.
      by destruct (Config.onLocationNotRequired _), (Config.onAccept _). }
    assert (∀ v w', storage_writes (trace (emit (EvSetItem STORAGE_KEY v) w'))
                    = S (storage_writes (trace w'))) as Hemit.
    { intros v w'. cbn [trace emit]. rewrite storage_writes_app.
      assert (storage_writes [EvSetItem STORAGE_KEY v] = 1%nat) as -> by reflexivity.
      lia. }
    destruct (setItem_throws _); cbn [trace stored set_localStorage];
      rewrite Hemit; cbn [trace set_now emit]; rewrite storage_writes_app, Htr0;
      assert (storage_writes [EvFetch (endpoint g)] = 0%nat) as -> by reflexivity; lia.
  - intros Ht. cbn [localStorage]. unfold after. rewrite saveConsent_run. cbn zeta.
    cbn [snd]. cbn [setItem_throws set_now emit]. rewrite Hthrows, Ht. cbn.
    apply lookup_insert_eq.
Qed.

Section Persistence.

Hypothesis JSON_roundtrip : ∀ c, JSON_parse (JSON_stringify c) = Some c.
Hypothesis JSON_parse_empty : JSON_parse EmptyString = None.

(** X7. On a valid stored record that is the text of a [ConsentState], for
    a category id other than [__proto__] and with [setItem] going through,
    [updateCategoryConsent] returns and stores the record with that one
    category set, every other category, the reason and the location data
    kept, and the timestamp moved to the time of the update: the record is
    read back as such, and its expiry window starts again from the
    update. *)
Theorem update_rewrites_record_and_restarts_expiry (this : ConsentStorage)
    (categoryId : string) (value : bool) (w : World) (c : ConsentState) :
  categoryId ≠ "__proto__" →
  typed_entry w →
  result (getConsent this) w = Ok (Some c) →
  setItem_throws w = false →
  let c' := updated_record c categoryId value (now w) in
  let w1 := after (updateCategoryConsent this categoryId value) w in
  result (updateCategoryConsent this categoryId value) w = Ok (Some c')
  ∧ categories c' !! categoryId = Some value
  ∧ (∀ key, key ≠ categoryId → categories c' !! key = categories c !! key)
  ∧ reason c' = reason c
  ∧ locationData c' = locationData c
  ∧ timestamp c' = now w
  ∧ (∀ t', t' ≤ now w + expiryDays this * 86400000 →
           result (getConsent this) (set_now t' w1) = Ok (Some c'))
  ∧ (∀ t', now w + expiryDays this * 86400000 < t' →
           result (getConsent this) (set_now t' w1) = Ok None).
Proof.
  intros _ _ Hg Ht c' w1.
  assert (Hv : version c = STORAGE_VERSION).
  { apply getConsent_some_iff in Hg as (s & _ & _ & _ & _ & Hv). exact Hv. }
  apply getConsent_some_run in Hg.
  pose proof (updateCategoryConsent_run this categoryId value w c Hg) as E.
  cbn zeta in E. rewrite Ht in E. fold (updated_record c categoryId value (now w)) in E.
  fold c' in E.
  assert (Hw1 : w1 = stored (JSON_stringify c') w) by (unfold w1, after; by rewrite E).
  unfold result. rewrite E. cbn [fst]. split_and!; try done.
  - cbn. apply lookup_insert_eq.
  - intros key Hk. cbn. by rewrite lookup_insert_ne.
  - intros t' Hle. rewrite Hw1.
    rewrite (getConsent_valid this _ (JSON_stringify c') c');
      [done|cbn; apply lookup_insert_eq|by apply JSON_stringify_nonempty
      |apply JSON_roundtrip|].
    split; [|exact Hv]. cbn. unfold days. lia.
  - intros t' Hlt. rewrite Hw1.
    rewrite (getConsent_invalid this _ (JSON_stringify c') c');
      [done|cbn; apply lookup_insert_eq|by apply JSON_stringify_nonempty
      |apply JSON_roundtrip|].
    intros [Hle _]. cbn in Hle. unfold days in Hle. lia.
Qed.

(** [init] on a world whose consent entry is a serialised valid record. *)
Lemma init_on_stored_record this w c :
  Config.forceShow (CookieDialog.config this) = false →
  localStorage w !! STORAGE_KEY = Some (JSON_stringify c) →
  version c = STORAGE_VERSION →
  now w ≤ timestamp c + expiryDays (CookieDialog.storage this) * 86400000 →
  init (this, w) =
    (Ok tt, (this, if Config.onAccept (CookieDialog.config this)
                   then emit (EvOnAccept c) w else w)).
Proof.
  intros Hf Hs Hv Ht. apply init_existing; [done|].
  apply (getConsent_valid _ w (JSON_stringify c) c);
    [done|by apply JSON_stringify_nonempty|apply JSON_roundtrip|].
  split; [|done]. unfold days. lia.
Qed.

(** X20. A decision is remembered, and remembered as an acceptance. After
    [acceptAll] or [rejectAll] whose [setItem] went through, an [init] with
    [forceShow] off at any time up to the expiry of the record does nothing
    but call [onAccept], if supplied, with the stored record: also after
    [rejectAll], whose record has reason [user_reject]. It makes no lookup
    and shows nothing. *)
Theorem decision_is_remembered_as_acceptance (this : CookieDialog.t) (w : World)
    (t' : Z) :
  let config := CookieDialog.config this in
  let cats := CookieDialog.categories this in
  Config.forceShow config = false →
  setItem_throws w = false →
  t' ≤ now w + expiryDays (CookieDialog.storage this) * 86400000 →
  (let s1 := after acceptAll (this, w) in
   let consent := mkConsentState (now w) (forEach_category (λ _, true) cats)
                    STORAGE_VERSION user_accept None in
   init (s1.1, set_now t' s1.2)
   = (Ok tt, (s1.1, if Config.onAccept config
                    then emit (EvOnAccept consent) (set_now t' s1.2)
                    else set_now t' s1.2)))
  ∧ (let s1 := after rejectAll (this, w) in
     let consent := mkConsentState (now w) (forEach_category required cats)
                      STORAGE_VERSION user_reject None in
     init (s1.1, set_now t' s1.2)
     = (Ok tt, (s1.1, if Config.onAccept config
                      then emit (EvOnAccept consent) (set_now t' s1.2)
                      else set_now t' s1.2))).
Proof.
  intros config cats Hf Ht Hle. subst config cats. split.
  - cbn zeta. unfold after. rewrite acceptAll_run. cbn zeta. cbn [fst snd].
    unfold after. rewrite saveConsent_run. cbn zeta. cbn [snd]. rewrite Ht.
    rewrite <- (hidden_config this) at 2.
    apply init_on_stored_record.
    + by rewrite hidden_config.
    + destruct (Config.onAccept _); cbn; apply lookup_insert_eq.
    + done.
    + rewrite hidden_storage. destruct (Config.onAccept _); cbn; lia.
  - cbn zeta. unfold after. rewrite rejectAll_run. cbn zeta. cbn [fst snd].
    unfold after. rewrite saveConsent_run. cbn zeta. cbn [snd]. rewrite Ht.
    rewrite <- (hidden_config this) at 2.
    apply init_on_stored_record.
    + by rewrite hidden_config.
    + destruct (Config.onReject _); cbn; apply lookup_insert_eq.
    + done.
    + rewrite hidden_storage. destruct (Config.onReject _); cbn; lia.
Qed.

(** X22. An automatic acceptance is remembered too. After an [init] that
    stored a region-exempt record, a second [init] at any time up to the
    expiry of that record makes no lookup and writes nothing: it only calls
    [onAccept], if supplied, with the stored record. *)
Theorem region_exempt_is_decided_once (this : CookieDialog.t) (w : World)
    (g : GeolocationService) (loc : GeolocationResponse)
    (g1 : GeolocationService) (w1 : World) (t' : Z) :
  let config := CookieDialog.config this in
  let storage := CookieDialog.storage this in
  Config.enableLocation config = true →
  Config.forceShow config = false →
  CookieDialog.geolocation this = Some g →
  result (hasConsent storage) w = Ok false →
  checkLocation (g, after (hasConsent storage) w) = (Ok loc, (g1, w1)) →
  inEU loc = false →
  setItem_throws w1 = false →
  t' ≤ now w1 + expiryDays storage * 86400000 →
  let s1 := after init (this, w) in
  let consent := exempt_record this loc (now w1) in
  result init (this, w) = Ok tt
  ∧ init (s1.1, set_now t' s1.2)
    = (Ok tt, (s1.1, if Config.onAccept config
                     then emit (EvOnAccept consent) (set_now t' s1.2)
                     else set_now t' s1.2)).
Proof.
  intros config storage He Hf Hg Hh Hc Hloc Ht Hle. subst config storage.
  cbn zeta. unfold result, after.
  rewrite (init_absent this w Hf Hh).
  rewrite (init_location_enabled _ _ g loc g1 w1 He Hg Hc).
  rewrite Hloc, Hf. cbn [negb andb]. cbn zeta. cbn [fst snd].
  split; [done|].
  unfold after. rewrite saveConsent_run. cbn zeta. cbn [snd]. rewrite Ht.
  set (this1 := CookieDialog.set_geolocation (Some g1) this).
  change (CookieDialog.config this) with (CookieDialog.config this1).
  apply init_on_stored_record.
  - done.
  - cbn. unfold exempt_record. rewrite Hloc. apply lookup_insert_eq.
  - done.
  - cbn. lia.
Qed.

End Persistence.

End Engine.

(** ** The reference codec meets the assumptions *)

Lemma of_bits_bits (p : positive) : Codec.of_bits (Codec.bits p) = Some p.
Proof. induction p as [p IH|p IH|]; cbn; [by rewrite IH..|done]. Qed.

Lemma parse_stringify (c : ConsentState) : parse (stringify c) = Some c.
Proof.
  unfold parse, stringify. rewrite of_bits_bits. cbn. apply decode_encode.
Qed.

Lemma parse_empty : parse EmptyString = None.
Proof. reflexivity. Qed.

Lemma requiredTrueb_spec cats C : requiredTrueb cats C = true → requiredTrue cats C.
Proof.
  unfold requiredTrueb. rewrite forallb_forall.
  intros H cat Hin Hr. apply list_elem_of_In in Hin.
  specialize (H cat Hin). rewrite Hr in H. cbn in H.
  by apply bool_decide_eq_true in H.
Qed.

Lemma respectsb_spec cats op : respectsb cats op = true → respects cats op.
Proof.
  destruct op as [C R L|categoryId value| | |t throws]; cbn; try done.
  - intros H. by apply requiredTrueb_spec.
  - intros H ->. cbn in H. rewrite forallb_forall in H.
    intros cat Hin Hr Heq. apply list_elem_of_In in Hin.
    specialize (H cat Hin). rewrite Hr in H. cbn in H.
    apply negb_true_iff, String.eqb_neq in H. done.
Qed.

Lemma Forall_respectsb cats ops :
  forallb (respectsb cats) ops = true → Forall (respects cats) ops.
Proof.
  rewrite forallb_forall, Forall_forall. intros H op Hin.
  apply respectsb_spec, H. by apply list_elem_of_In.
Qed.

(** ** The properties at work *)

Lemma malformed_record_is_kept_witness :
  getConsent parse default_storage world_with_garbage = (Ok None, world_with_garbage).
Proof.
  apply (malformed_record_is_kept parse default_storage world_with_garbage "{not json");
    reflexivity.
Defined.

Lemma storage_failure_is_caught_witness :
  result (updateCategoryConsent stringify parse default_storage "analytics" true)
         world_over_quota = Ok None.
Proof.
  apply (storage_failure_is_caught stringify parse default_storage world_over_quota).
  reflexivity.
Defined.


(** The store hands back a required category denied, as it was written. *)
Lemma roundtrip_does_not_force_required :
  ¬ roundtrip_forcing_required stringify parse default_categories default_storage
      (<["necessary" := false]> ∅) user_accept fresh_world.
Proof.
  intros (rec & Hr & Hc & _). unfold result in Hr.
  rewrite (read_after_save stringify parse parse_stringify parse_empty) in Hr
    by reflexivity.
  cbv zeta in Hr.
  change (now fresh_world >? now fresh_world + days (expiryDays default_storage))
    with false in Hr.
  cbv iota in Hr. cbn [fst] in Hr. injection Hr as <-. cbn [categories] in Hc.
  apply (f_equal (λ m : gmap string bool, m !! "necessary")) in Hc.
  vm_compute in Hc. discriminate Hc.
Qed.

Lemma read_after_write_returns_written_witness :
  ∃ rec, result (getConsent parse default_storage)
                (after (saveConsent stringify default_storage
                          (<["necessary" := false]> ∅) user_accept None) fresh_world)
         = Ok (Some rec)
         ∧ categories rec = <["necessary" := false]> ∅
         ∧ reason rec = user_accept.
Proof.
  destruct (read_after_write_returns_written stringify parse parse_stringify parse_empty
              default_storage (<["necessary" := false]> ∅) user_accept None fresh_world)
    as (rec & Hr & Hc & HR & _); [reflexivity|vm_compute; discriminate|].
  exists rec. split; [exact Hr|]. split; [exact Hc|exact HR].
Defined.

Lemma expiry_is_fixed_from_creation_witness :
  let w1 := after (saveConsent stringify default_storage
                     (<["necessary" := true]> ∅) user_accept None) fresh_world in
  result (getConsent parse default_storage)
         (set_now (1700000000000 + 365 * 86400000 - 1) w1)
  = Ok (Some (mkConsentState 1700000000000 (<["necessary" := true]> ∅)
                STORAGE_VERSION user_accept None))
  ∧ result (getConsent parse default_storage)
           (set_now (1700000000000 + 365 * 86400000 + 1) w1)
    = Ok None.
Proof.
  intros w1.
  destruct (expiry_is_fixed_from_creation stringify parse parse_stringify parse_empty
              default_storage (<["necessary" := true]> ∅) user_accept None fresh_world)
    as (Hin & Hout & _); [reflexivity|].
  split.
  - unfold result. fold w1 in Hin. rewrite Hin; [reflexivity|vm_compute; discriminate].
  - apply Hout. vm_compute; discriminate.
Defined.

(** A category update through the store denies a required category. *)
Lemma update_can_deny_required :
  ¬ reads_grant_required stringify parse default_categories default_storage
      withdraw_necessary fresh_world.
Proof.
  intros H.
  set (C0 := <["necessary" := true]> (<["analytics" := true]> (∅ : gmap string bool))).
  set (rec0 := mkConsentState 1700000000000 C0 STORAGE_VERSION user_accept None).
  set (rec1 := mkConsentState 1700000000000 (<["necessary" := false]> C0)
                 STORAGE_VERSION user_accept None).
  set (w1 := stored (stringify rec0) fresh_world).
  set (w2 := stored (stringify rec1) w1).
  assert (H1 : after (saveConsent stringify default_storage C0 user_accept None)
                     fresh_world = w1).
  { unfold after. rewrite saveConsent_run. reflexivity. }
  assert (Hg1 : getConsent parse default_storage w1 = (Ok (Some rec0), w1)).
  { unfold w1. rewrite (getConsent_stored stringify parse parse_stringify parse_empty).
    reflexivity. }
  assert (H2 : after (updateCategoryConsent stringify parse default_storage
                        "necessary" false) w1 = w2).
  { unfold after.
    exact (f_equal snd (updateCategoryConsent_run stringify parse default_storage
                          "necessary" false w1 rec0 Hg1)). }
  assert (Hg2 : getConsent parse default_storage w2 = (Ok (Some rec1), w2)).
  { unfold w2. rewrite (getConsent_stored stringify parse parse_stringify parse_empty).
    reflexivity. }
  assert (Hreads : reads stringify parse default_storage withdraw_necessary fresh_world
                   = [rec1]).
  { unfold withdraw_necessary. cbn [reads run_op]. fold C0. rewrite H1, H2, Hg2.
    reflexivity. }
  specialize (H rec1). rewrite Hreads in H.
  specialize (H ltac:(by left) (mkCookieCategory "necessary" "Necessary"
     "Essential cookies for the website to function properly" true)
     ltac:(by left) eq_refl).
  vm_compute in H. discriminate H.
Qed.

Lemma reads_grant_required_when_callers_do_witness :
  reads_grant_required stringify parse default_categories default_storage
    toggle_analytics fresh_world.
Proof.
  apply (reads_grant_required_when_callers_do stringify parse parse_stringify).
  - reflexivity.
  - apply Forall_respectsb. vm_compute. reflexivity.
Defined.

(** An update whose [setItem] throws returns nothing, not the record. *)
Lemma update_does_not_fail_open :
  ¬ update_fails_open stringify parse default_storage "analytics" true world_over_quota.
Proof.
  intros H.
  assert (Hg : getConsent parse default_storage world_over_quota =
               (Ok (Some scenario_record), world_over_quota)).
  { apply (getConsent_valid parse default_storage world_over_quota
             (stringify scenario_record));
      [reflexivity|apply (JSON_stringify_nonempty stringify parse parse_stringify parse_empty)
      |apply parse_stringify|].
    split; [vm_compute; discriminate|reflexivity]. }
  specialize (H eq_refl scenario_record). unfold result in H. rewrite Hg in H.
  specialize (H eq_refl).
  pose proof (f_equal fst (updateCategoryConsent_run stringify parse default_storage
                              "analytics" true world_over_quota scenario_record Hg)) as E.
  change (fst (updateCategoryConsent stringify parse default_storage "analytics" true
                 world_over_quota) = Ok None) in E.
  congruence.
Qed.

Lemma existing_consent_short_circuits_witness :
  ∃ c, result (getConsent parse default_storage) world_with_consent = Ok (Some c)
       ∧ init stringify parse (dialog_default, world_with_consent)
         = (Ok tt, (dialog_default, emit (EvOnAccept c) world_with_consent)).
Proof.
  destruct (existing_consent_short_circuits stringify parse dialog_default
              world_with_consent)
    as (s & c & _ & _ & _ & _ & Hg & Hi); [reflexivity|vm_compute; reflexivity|].
  exists c. split; [exact Hg|exact Hi].
Defined.

Lemma lookup_failure_is_failsafe_and_uncached_witness :
  result checkLocation (new_GeolocationService None, fresh_world)
  = Ok (mkGeolocationResponse true None None).
Proof.
  destruct (lookup_failure_is_failsafe_and_uncached (new_GeolocationService None)
              fresh_world) as [H _];
    [left; reflexivity|left; reflexivity|vm_compute; discriminate|].
  unfold result. rewrite H. reflexivity.
Defined.

Lemma provider_dispatch_is_by_substring_witness :
  result checkLocation (proxy_service, world_in_us)
  = Ok (mkGeolocationResponse false (Some "United States") (Some "California")).
Proof.
  apply (provider_dispatch_is_by_substring proxy_service world_in_us response_us
           (mkGeoData (Some "US") (Some "United States") (Some "California")
                      None None None));
    [left; reflexivity|reflexivity..|].
  exists "https://geo.example.com/", "/json". reflexivity.
Defined.

Lemma region_exempt_is_auto_accepted_witness :
  ∃ consent w2,
    result (init stringify parse) (dialog_with_location, world_in_us) = Ok tt
    ∧ reason consent = location_not_required
    ∧ categories consent !! "marketing" = Some true
    ∧ localStorage w2 !! STORAGE_KEY = Some (stringify consent)
    ∧ after (init stringify parse) (dialog_with_location, world_in_us)
      = (CookieDialog.set_geolocation
           (Some (mkGeolocationService "https://ipapi.co/json/"
                    (Some (mkGeolocationResponse false (Some "United States")
                             (Some "California")))
                    1700000000120))
           dialog_with_location, w2).
Proof.
  destruct (region_exempt_is_auto_accepted stringify parse dialog_with_location
              world_in_us (new_GeolocationService None)
              (mkGeolocationResponse false (Some "United States") (Some "California"))
              (mkGeolocationService "https://ipapi.co/json/"
                 (Some (mkGeolocationResponse false (Some "United States")
                          (Some "California")))
                 1700000000120)
              (set_now 1700000000120
                 (emit (EvFetch "https://ipapi.co/json/") world_in_us)))
    as (consent & w2 & Hi & _ & Hc & _ & Hr & _ & _ & Hs & _);
    [reflexivity..|].
  exists consent, w2. unfold result, after. rewrite Hi.
  split; [reflexivity|]. split.
  { destruct (reason consent); [discriminate Hr..|reflexivity]. }
  split; [rewrite Hc; reflexivity|]. split; [apply Hs; reflexivity|reflexivity].
Defined.

(** With [autoShow] off, [init] comes to its last step and shows nothing. *)
Lemma init_without_autoShow_shows_nothing :
  ¬ init_shows_prompt stringify parse dialog_without_autoShow fresh_world.
Proof.
  intros H.
  destruct H as (el & Hel & _).
  - split; [reflexivity|left; reflexivity].
  - vm_compute in Hel. discriminate Hel.
Qed.

Lemma prompt_is_shown_under_autoShow_witness :
  prompt_shown (after (init stringify parse) (dialog_default, fresh_world)).1.
Proof.
  destruct (prompt_is_shown_under_autoShow stringify parse dialog_default fresh_world)
    as (Hs & _).
  - split; [reflexivity|left; reflexivity].
  - apply Hs. reflexivity.
Defined.

(** ** The scenarios of the specification *)

(** Scenario A: a fresh visitor is prompted, and accepting everything
    stores every default category granted. *)
Example scenario_accept_all :
  let s1 := after (init stringify parse) (dialog_default, fresh_world) in
  let s2 := after (acceptAll stringify) s1 in
  prompt_shown s1.1
  ∧ result (getConsent parse default_storage) s2.2
    = Ok (Some (mkConsentState 1700000000000
                  (<["necessary" := true]>
                     (<["analytics" := true]> (<["marketing" := true]> ∅)))
                  STORAGE_VERSION user_accept None))
  ∧ trace s2.2
    = [EvSetItem STORAGE_KEY
         (stringify (mkConsentState 1700000000000
                       (<["necessary" := true]>
                          (<["analytics" := true]> (<["marketing" := true]> ∅)))
                       STORAGE_VERSION user_accept None));
       EvOnAccept (mkConsentState 1700000000000
                     (<["necessary" := true]>
                        (<["analytics" := true]> (<["marketing" := true]> ∅)))
                     STORAGE_VERSION user_accept None)].
Proof.
  split; [eexists; split; vm_compute; reflexivity|].
  split; vm_compute; reflexivity.
Qed.

(** Scenario D: rejecting keeps the required categories and denies the
    others, and the reject hook is handed nothing. *)
Example scenario_reject_all :
  let s1 := after (init stringify parse) (dialog_default, fresh_world) in
  let s2 := after (rejectAll stringify) s1 in
  result (getConsent parse default_storage) s2.2
  = Ok (Some (mkConsentState 1700000000000
                (<["necessary" := true]>
                   (<["analytics" := false]> (<["marketing" := false]> ∅)))
                STORAGE_VERSION user_reject None))
  ∧ last (trace s2.2) = Some EvOnReject.
Proof. split; vm_compute; reflexivity. Qed.

(** Scenario E: updating a category with no record stored returns nothing
    and leaves the storage untouched. *)
Example scenario_update_without_record :
  updateCategoryConsent stringify parse default_storage "analytics" true fresh_world
  = (Ok None, fresh_world).
Proof. reflexivity. Qed.

(** A record of another schema version is erased by the read. *)
Example scenario_version_mismatch :
  let old := mkConsentState 1700000000000 (<["necessary" := true]> ∅)
               "0.9.0" user_accept None in
  let w := set_localStorage (<[STORAGE_KEY := stringify old]> ∅) fresh_world in
  result (getConsent parse default_storage) w = Ok None
  ∧ localStorage (after (getConsent parse default_storage) w) !! STORAGE_KEY = None.
Proof. split; vm_compute; reflexivity. Qed.

(** ** The further properties at work *)

Lemma typed_entry_world_with_consent : typed_entry stringify parse world_with_consent.
Proof.
  intros s Hs. right. right. exists scenario_record.
  apply (inj Some). rewrite <- Hs. vm_compute. reflexivity.
Qed.

Lemma typed_entry_fresh_world : typed_entry stringify parse fresh_world.
Proof. intros s Hs. vm_compute in Hs. discriminate. Qed.

Lemma hasConsent_characterised_witness :
  result (hasConsent parse default_storage) world_with_consent = Ok true
  ∧ result (hasConsent parse default_storage) fresh_world = Ok false.
Proof.
  split.
  - apply (hasConsent_characterised stringify parse default_storage world_with_consent
             typed_entry_world_with_consent).
    exists (stringify scenario_record), scenario_record.
    split_and!; [reflexivity|apply (JSON_stringify_nonempty stringify parse parse_stringify parse_empty)
                |apply parse_stringify|vm_compute; discriminate|reflexivity].
  - destruct (hasConsent_characterised stringify parse default_storage fresh_world
                typed_entry_fresh_world) as [Hiff [H|H]]; [|exact H].
    apply Hiff in H as (s & c & Hs & _). vm_compute in Hs. discriminate.
Defined.

Lemma getCategoryConsent_characterised_witness :
  result (getCategoryConsent parse default_storage "necessary") world_with_consent
  = Ok true.
Proof.
  apply (getCategoryConsent_characterised stringify parse default_storage "necessary"
           world_with_consent typed_entry_world_with_consent).
  exists (stringify scenario_record), scenario_record.
  split_and!; [reflexivity|apply (JSON_stringify_nonempty stringify parse parse_stringify parse_empty)
              |apply parse_stringify|vm_compute; discriminate|reflexivity
              |vm_compute; reflexivity].
Defined.

Lemma update_without_record_creates_nothing_witness :
  result (updateCategoryConsent stringify parse default_storage "analytics" true)
         world_with_garbage = Ok None.
Proof.
  destruct (update_without_record_creates_nothing stringify parse default_storage
              "analytics" true world_with_garbage) as (E & _); [reflexivity|].
  unfold result. rewrite E. reflexivity.
Defined.

Lemma update_rewrites_record_and_restarts_expiry_witness :
  result (updateCategoryConsent stringify parse default_storage "analytics" true)
         world_with_consent
  = Ok (Some (updated_record scenario_record "analytics" true 1700000000000)).
Proof.
  assert (Hg : result (getConsent parse default_storage) world_with_consent
               = Ok (Some scenario_record)) by (vm_compute; reflexivity).
  assert (Hid : "analytics" ≠ "__proto__") by discriminate.
  destruct (update_rewrites_record_and_restarts_expiry stringify parse parse_stringify
              parse_empty default_storage "analytics" true world_with_consent
              scenario_record Hid typed_entry_world_with_consent Hg eq_refl)
    as (E & _).
  exact E.
Defined.

Lemma cache_answers_for_one_hour_witness :
  ∃ res this1 w1,
    checkLocation (new_GeolocationService None, world_in_us) = (Ok res, (this1, w1))
    ∧ checkLocation (this1, fresh_world) = (Ok res, (this1, fresh_world)).
Proof.
  destruct (cache_answers_for_one_hour (new_GeolocationService None) world_in_us
              response_us
              (mkGeoData (Some "US") (Some "United States") (Some "California")
                         None None None))
    as (res & this1 & w1 & E & _ & _ & _ & Hhit & _);
    [left; reflexivity|reflexivity..|].
  exists res, this1, w1. split; [exact E|]. apply Hhit. vm_compute. reflexivity.
Defined.

Lemma unreadable_body_is_failsafe_witness :
  result checkLocation (new_GeolocationService None, world_not_json)
  = Ok (mkGeolocationResponse true None None).
Proof.
  unfold result.
  rewrite (unreadable_body_is_failsafe (new_GeolocationService None) world_not_json
             (mkResponse true 200 None)); [reflexivity|left; reflexivity|reflexivity..].
Defined.

Lemma inEU_of_a_successful_lookup_witness :
  ∃ loc, result checkLocation (proxy_service, world_in_us) = Ok loc.
Proof.
  destruct (inEU_of_a_successful_lookup proxy_service world_in_us response_us
              (mkGeoData (Some "US") (Some "United States") (Some "California")
                         None None None))
    as (loc & E & _); [left; reflexivity|reflexivity..|].
  exists loc. exact E.
Defined.

Lemma acceptAll_grants_every_category_witness :
  ∃ consent w',
    after (acceptAll stringify) (dialog_default, fresh_world)
    = (hidden dialog_default, w')
    ∧ categories consent !! "analytics" = Some true
    ∧ trace w' = [EvSetItem STORAGE_KEY (stringify consent); EvOnAccept consent].
Proof.
  assert (Hids : ∀ cat, cat ∈ CookieDialog.categories dialog_default
                        → id cat ≠ "__proto__").
  { apply (proj1 (Forall_forall _ _)). vm_compute. repeat constructor; discriminate. }
  destruct (acceptAll_grants_every_category stringify dialog_default fresh_world Hids)
    as (consent & w' & E & _ & Hk & _ & Htr & _).
  exists consent, w'. split; [exact E|]. split; [|exact Htr].
  rewrite (Hk "analytics"). reflexivity.
Defined.

Lemma rejectAll_keeps_only_required_witness :
  ∃ consent w',
    after (rejectAll stringify) (dialog_default, fresh_world)
    = (hidden dialog_default, w')
    ∧ categories consent !! "necessary" = Some true
    ∧ categories consent !! "analytics" = Some false.
Proof.
  assert (Hids : ∀ cat, cat ∈ CookieDialog.categories dialog_default
                        → id cat ≠ "__proto__").
  { apply (proj1 (Forall_forall _ _)). vm_compute. repeat constructor; discriminate. }
  destruct (rejectAll_keeps_only_required stringify dialog_default fresh_world Hids)
    as (consent & w' & E & _ & Hk & _).
  exists consent, w'. split; [exact E|].
  rewrite (Hk "necessary"), (Hk "analytics"). split; reflexivity.
Defined.

Lemma saveSettings_stores_the_checkboxes_witness :
  ∃ consent w',
    after (saveSettings stringify) (dialog_rendered, fresh_world)
    = (hidden dialog_rendered, w')
    ∧ categories consent !! "necessary" = Some true
    ∧ categories consent !! "analytics" = Some false
    ∧ categories consent !! "marketing" = None.
Proof.
  assert (Hids : ∀ box : string * bool,
             box ∈ [("necessary", true); ("analytics", false)]
             → box.1 ≠ "__proto__").
  { apply (proj1 (Forall_forall _ _)). repeat constructor; discriminate. }
  destruct (saveSettings_stores_the_checkboxes stringify dialog_rendered fresh_world
              Hids)
    as (consent & w' & E & _ & Hk & _).
  exists consent, w'. split; [exact E|].
  rewrite (Hk "necessary"), (Hk "analytics"), (Hk "marketing"). split_and!; reflexivity.
Defined.

Lemma forceShow_prompts_over_valid_consent_witness :
  ∃ this1,
    init stringify parse (dialog_forced, world_with_consent)
    = (Ok tt, (this1, world_with_consent))
    ∧ CookieDialog.dialogElement this1
      = Some (mkDialogElement true
                [("necessary", true); ("analytics", false); ("marketing", true)]).
Proof.
  assert (Hg : result (getConsent parse (CookieDialog.storage dialog_forced))
                      world_with_consent = Ok (Some scenario_record))
    by (vm_compute; reflexivity).
  destruct (forceShow_prompts_over_valid_consent stringify parse dialog_forced
              world_with_consent scenario_record eq_refl eq_refl
              (or_introl eq_refl) eq_refl Hg) as (this1 & E & Hd & _).
  exists this1. split; [exact E|]. rewrite Hd. vm_compute. reflexivity.
Defined.

Lemma failed_lookup_prompts_and_stores_nothing_witness :
  ∃ this1 w1,
    init stringify parse (dialog_with_location, fresh_world) = (Ok tt, (this1, w1))
    ∧ prompt_shown this1
    ∧ storage_writes (trace w1) = 0%nat.
Proof.
  destruct (failed_lookup_prompts_and_stores_nothing stringify parse
              dialog_with_location fresh_world (new_GeolocationService None))
    as (this1 & E & _ & Hs & _ & Hw & _);
    [reflexivity|reflexivity|reflexivity|reflexivity|left; reflexivity
    |left; reflexivity|].
  eexists this1, _. split; [exact E|]. split; [apply Hs; reflexivity|exact Hw].
Defined.

Lemma show_renders_once_witness :
  ∃ this1, show parse (hidden dialog_rendered, world_with_consent)
           = (Ok tt, (this1, world_with_consent))
           ∧ CookieDialog.dialogElement this1
             = Some (mkDialogElement true [("necessary", true); ("analytics", false)]).
Proof.
  destruct (show_renders_once stringify parse dialog_rendered world_with_consent
              (mkDialogElement true [("necessary", true); ("analytics", false)])
              eq_refl) as (H & _).
  exact H.
Defined.

Lemma decision_is_remembered_as_acceptance_witness :
  let s1 := after (rejectAll stringify) (dialog_default, fresh_world) in
  init stringify parse (s1.1, set_now (1700000000000 + 86400000) s1.2)
  = (Ok tt,
     (s1.1,
      emit (EvOnAccept (mkConsentState 1700000000000
                          (forEach_category required default_categories)
                          STORAGE_VERSION user_reject None))
           (set_now (1700000000000 + 86400000) s1.2))).
Proof.
  destruct (decision_is_remembered_as_acceptance stringify parse parse_stringify
              parse_empty dialog_default fresh_world (1700000000000 + 86400000))
    as (_ & H); [reflexivity|reflexivity|vm_compute; discriminate|].
  exact H.
Defined.

Lemma stale_consent_is_erased_and_reprompted_witness :
  ∃ this1,
    init stringify parse (dialog_default, world_with_old_version)
    = (Ok tt, (this1, erased world_with_old_version))
    ∧ prompt_shown this1.
Proof.
  destruct (stale_consent_is_erased_and_reprompted stringify parse dialog_default
              world_with_old_version (stringify old_record) old_record)
    as (this1 & E & Hs & _).
  - reflexivity.
  - reflexivity.
  - left. reflexivity.
  - reflexivity.
  - unfold stringify. discriminate.
  - apply parse_stringify.
  - intros [_ Hv]. discriminate Hv.
  - exists this1. split; [exact E|exact Hs].
Defined.

Lemma region_exempt_is_decided_once_witness :
  let s1 := after (init stringify parse) (dialog_with_location, world_in_us) in
  result (init stringify parse) (s1.1, s1.2) = Ok tt
  ∧ lookups (trace (after (init stringify parse) (s1.1, s1.2)).2) = 1%nat.
Proof.
  intros s1.
  destruct (region_exempt_is_decided_once stringify parse parse_stringify parse_empty
              dialog_with_location world_in_us (new_GeolocationService None)
              (mkGeolocationResponse false (Some "United States") (Some "California"))
              (mkGeolocationService "https://ipapi.co/json/"
                 (Some (mkGeolocationResponse false (Some "United States")
                          (Some "California")))
                 1700000000120)
              (set_now 1700000000120
                 (emit (EvFetch "https://ipapi.co/json/") world_in_us))
              1700000000120)
    as (_ & H);
    [reflexivity|reflexivity|reflexivity|reflexivity|reflexivity|reflexivity
    |reflexivity|vm_compute; discriminate|].
  fold s1 in H. change (set_now 1700000000120 s1.2) with s1.2 in H.
  unfold result, after. rewrite H. split; [reflexivity|].
  cbn [snd]. vm_compute. reflexivity.
Defined.

Lemma silent_lookup_is_auto_accepted_witness :
  ∃ consent this1 w2,
    init stringify parse (dialog_with_location, world_silent) = (Ok tt, (this1, w2))
    ∧ reason consent = location_not_required
    ∧ localStorage w2 !! STORAGE_KEY = Some (stringify consent).
Proof.
  destruct (silent_lookup_is_auto_accepted stringify parse dialog_with_location
              world_silent (new_GeolocationService None)
              (mkResponse true 200 (Some (mkGeoData None None None None None None)))
              (mkGeoData None None None None None None))
    as (consent & this1 & w2 & E & _ & Hr & _ & _ & Hs);
    [reflexivity..|].
  exists consent, this1, w2. split; [exact E|]. split; [exact Hr|].
  apply Hs. reflexivity.
Defined.
